(** * Ext.data.association.HasOne (touch/src/data/association/HasOne.js)

    The hasOne association rewritten on top of hasMany: for every owner
    record the association's store function creates one Ext.data.Store,
    keeps it in an instance slot of the record, installs a getter and a
    setter on the record and starts the store's load.

    The development is a shallow embedding.  JavaScript objects that are
    shared by reference (the stores) live in a heap and are named by their
    location; the closures installed on a record capture the location of
    the store they were created with.  Code that can raise a TypeError
    runs in a small state-and-error monad over the world. *)

From Stdlib Require Import ZArith Ascii String List Bool Lia.
From stdpp Require Import base strings list gmap.

Local Open Scope string_scope.

(** ** Strings *)

Module Str.

(** [String.prototype.toLowerCase], on the ASCII letters. *)
Definition lower_ascii (c : ascii) : ascii :=
  let n := nat_of_ascii c in
  if (65 <=? n)%nat && (n <=? 90)%nat then ascii_of_nat (n + 32) else c.

Definition upper_ascii (c : ascii) : ascii :=
  let n := nat_of_ascii c in
  if (97 <=? n)%nat && (n <=? 122)%nat then ascii_of_nat (n - 32) else c.

Fixpoint toLowerCase (s : string) : string :=
  match s with
  | EmptyString => EmptyString
  | String c rest => String (lower_ascii c) (toLowerCase rest)
  end.

(** Modelled from the spec: Ext.String.capitalize, which HasOne.js calls and
    does not define ("get" plus the capitalized relation name): the first
    character is upper-cased and the rest is kept. *)
Definition capitalize (s : string) : string :=
  match s with
  | EmptyString => EmptyString
  | String c rest => String (upper_ascii c) rest
  end.

End Str.

(** ** Values *)

(** A raw primary-key value. *)
Inductive scalar :=
| SNum (n : Z)
| SStr (s : string).

(** The data a model instance was built from: a bare value, as in
    [new Model(10)], or named fields. *)
Inductive rawdata :=
| RScalar (v : scalar)
| RFields (fs : list (string * scalar)).

(** An instance of an associated model. *)
Record instance := Instance { inst_model : string; inst_data : rawdata }.

(** What the caller hands to the setter: a raw key or a model instance. *)
Inductive setter_arg :=
| ArgKey (k : scalar)
| ArgRecord (i : instance).

(** Caller-supplied functions are named by a number. *)
Abbreviation fn := nat.

(** The options object of a load: [reload], [callback], [success],
    [failure], [scope]. *)
Record load_options := LoadOptions {
  reload : bool;
  callback : option fn;
  success : option fn;
  failure : option fn;
  scope : option nat
}.

(** What a caller may pass to the generated getter, or as second argument
    to the generated setter. *)
Inductive call_arg :=
| CallNone
| CallFunction (f : fn)
| CallOptions (o : load_options).

(** A store filter [{property, value}]. *)
Record store_filter := Filter { property : string; value : scalar }.

(** The [storeConfig] given to the association. *)
Record store_options := StoreOptions {
  so_model : option string;
  so_filters : list store_filter;
  so_other : list (string * scalar)
}.

(** The config a store is created with. *)
Record store_config := StoreConfig {
  sc_model : string;
  sc_filters : list store_filter;
  sc_other : list (string * scalar)
}.

(** Modelled from the spec: Ext.apply, which HasOne.js calls and does not
    define.  [Ext.apply({}, storeConfig, {model: associatedModel})] "merges
    collectionConfig with a forced binding to the associated entity type". *)
Definition Ext_apply (storeConfig : store_options) (associatedModel : string)
  : store_config :=
  {| sc_model := associatedModel;
     sc_filters := so_filters storeConfig;
     sc_other := so_other storeConfig |}.

(** ** The heap of stores *)

Abbreviation loc := nat.

(** Modelled from the spec: Ext.data.Store, the Loadable Collection that
    HasOne.js creates and does not define.  It holds its config, the
    elements currently held, the loads in flight (oldest first, each with
    the options it was started with) and whether a load has completed. *)
Record store := Store {
  st_config : store_config;
  st_data : list instance;
  st_pending : list (option load_options);
  st_loaded : bool
}.

(** What the data source answers to a load. *)
Inductive outcome :=
| Loaded (records : list instance)
| Failed.

(** ** Owner records *)

(** A property installed on an owner record object: the store, or one of
    the two closures of [applyStore], each with the store it captured. *)
Inductive prop :=
| PStore (l : loc)
| PGetter (l : loc)
| PSetter (l : loc).

(** An owner record: its field data ([record.get(field)]) and the
    properties of the object itself ([record[key]]). *)
Record owner := Owner {
  o_data : gmap string scalar;
  o_props : gmap string prop
}.

Abbreviation rid := nat.

(** ** Events *)

Inductive event :=
| EvLoad (l : loc) (request : store_config)
| EvCall (f : fn) (first_record : option instance) (ok : bool)
| EvSave (r : rid).
(** [EvLoad]: a store started a load with this request.  [EvCall]: a
    caller-supplied function was called.  [EvSave]: an owner record was
    saved. *)

(** ** The world *)

Record world := World {
  w_records : gmap nat owner;
  w_heap : list store;
  w_log : list event
}.

Definition empty_owner : owner := {| o_data := ∅; o_props := ∅ |}.

Definition get_owner (w : world) (r : rid) : owner :=
  default empty_owner (w_records w !! r).

(** ** The monad *)

Inductive error := TypeError.

Inductive result (A : Type) :=
| Ok (a : A)
| Throw (e : error).
Arguments Ok {A} a.
Arguments Throw {A} e.

Definition M (A : Type) : Type := world → result A * world.

Definition ret {A} (a : A) : M A := λ w, (Ok a, w).

Definition bind {A B} (m : M A) (k : A → M B) : M B :=
  λ w, match m w with
       | (Ok a, w') => k a w'
       | (Throw e, w') => (Throw e, w')
       end.

Definition throw {A} (e : error) : M A := λ w, (Throw e, w).

Notation "'let*' x ':=' m 'in' k" := (bind m (λ x, k))
  (at level 10, x name, m at level 100, k at level 200).

(** [record[key]] *)
Definition get_prop (r : rid) (key : string) : M (option prop) :=
  λ w, (Ok (o_props (get_owner w r) !! key), w).

(** [record[key] = p] *)
Definition set_prop (r : rid) (key : string) (p : prop) : M unit :=
  λ w, let o := get_owner w r in
       (Ok tt,
        {| w_records := <[r := {| o_data := o_data o;
                                   o_props := <[key := p]> (o_props o) |}]>
                          (w_records w);
           w_heap := w_heap w;
           w_log := w_log w |}).

Definition emit (e : event) : M unit :=
  λ w, (Ok tt, {| w_records := w_records w; w_heap := w_heap w;
                  w_log := w_log w ++ [e] |}).

Definition put_store (l : loc) (s : store) : M unit :=
  λ w, (Ok tt, {| w_records := w_records w;
                  w_heap := <[l := s]> (w_heap w);
                  w_log := w_log w |}).

(** ** Ext.data.Store *)

Module ExtStore.

(** Modelled from the spec: [Ext.create('Ext.data.Store', config)]; a new
    collection holds nothing and has no load in flight. *)
Definition create (config : store_config) : M loc :=
  λ w, (Ok (length (w_heap w)),
        {| w_records := w_records w;
           w_heap := w_heap w ++ [{| st_config := config; st_data := [];
                                     st_pending := []; st_loaded := false |}];
           w_log := w_log w |}).

(** Modelled from the spec: [load()] is asynchronous; the call records the
    request and returns, the elements arrive at [complete]. *)
Definition load (l : loc) (options : option load_options) : M unit :=
  λ w, match w_heap w !! l with
       | Some s =>
           (let* _ := put_store l {| st_config := st_config s;
                                     st_data := st_data s;
                                     st_pending := st_pending s ++ [options];
                                     st_loaded := st_loaded s |} in
            emit (EvLoad l (st_config s))) w
       | None => (Ok tt, w)
       end.

(** Modelled from the spec: [removeAll()]. *)
Definition removeAll (l : loc) : M unit :=
  λ w, match w_heap w !! l with
       | Some s => put_store l {| st_config := st_config s; st_data := [];
                                  st_pending := st_pending s;
                                  st_loaded := st_loaded s |} w
       | None => (Ok tt, w)
       end.

(** Modelled from the spec: the element added for a setter argument is the
    instance itself, "or the record constructed from the key". *)
Definition element_of (config : store_config) (a : setter_arg) : instance :=
  match a with
  | ArgRecord i => i
  | ArgKey k => {| inst_model := sc_model config; inst_data := RScalar k |}
  end.

(** Modelled from the spec: [add(element)]. *)
Definition add (l : loc) (a : setter_arg) : M unit :=
  λ w, match w_heap w !! l with
       | Some s => put_store l {| st_config := st_config s;
                                  st_data := st_data s
                                             ++ [element_of (st_config s) a];
                                  st_pending := st_pending s;
                                  st_loaded := st_loaded s |} w
       | None => (Ok tt, w)
       end.

(** Modelled from the spec: [first() -> element | absent]. *)
Definition first (l : loc) : M (option instance) :=
  λ w, (Ok (match w_heap w !! l with
            | Some s => head (st_data s)
            | None => None
            end), w).

Definition call_opt (f : option fn) (x : option instance) (ok : bool)
  : M unit :=
  match f with
  | Some g => emit (EvCall g x ok)
  | None => ret tt
  end.

(** Modelled from the spec: the completion of the oldest load in flight.
    A successful load populates the elements and is terminal; a failed
    load leaves the collection as it was.  The callbacks of the options
    the load was started with are called: [success] or [failure], then
    [callback]. *)
Definition complete (l : loc) (o : outcome) : M unit :=
  λ w, match w_heap w !! l with
       | Some s =>
           match st_pending s with
           | [] => (Ok tt, w)
           | options :: rest =>
               let cb := options ≫= callback in
               match o with
               | Loaded records =>
                   (let* _ := put_store l {| st_config := st_config s;
                                             st_data := records;
                                             st_pending := rest;
                                             st_loaded := true |} in
                    let* _ := call_opt (options ≫= success) (head records) true in
                    call_opt cb (head records) true) w
               | Failed =>
                   (let* _ := put_store l {| st_config := st_config s;
                                             st_data := st_data s;
                                             st_pending := rest;
                                             st_loaded := st_loaded s |} in
                    let* _ := call_opt (options ≫= failure) None false in
                    call_opt cb None false) w
               end
           end
       | None => (Ok tt, w)
       end.

End ExtStore.

(** ** The association *)

(** The association's config as [applyName] and [applyStore] read it.
    [name] is the raw value given to [setName]; the other fields are what
    the getters inherited from HasMany return. *)
Record HasOne := {
  name : option string;
  associatedName : string;
  associatedModel : string;
  primaryKey : string;
  foreignKey : string;
  storeName : string;
  storeConfig : store_options
}.

(** [!name] for a string or undefined. *)
Definition falsy (name : option string) : bool :=
  match name with
  | None => true
  | Some s => if decide (s = "") then true else false
  end.

(** [applyName] *)
Definition applyName (me : HasOne) (name : option string) : string :=
  if falsy name then Str.toLowerCase (associatedName me)
  else default "" name.

(** [getName()]: the value [applyName] produced for the configured name. *)
Definition getName (me : HasOne) : string := applyName me (name me).

Definition getterName (me : HasOne) : string :=
  "get" ++ Str.capitalize (getName me).

Definition setterName (me : HasOne) : string :=
  "set" ++ Str.capitalize (getName me).

(** The closure installed under [getterName]: [function(){ return
    store.first(); }].  It has no formal parameter; whatever it is called
    with is dropped. *)
Definition getter (store : loc) (args : call_arg) : M (option instance) :=
  ExtStore.first store.

(** The closure installed under [setterName]: [function(record){
    store.removeAll(); store.add(record); }].  A second argument is
    dropped. *)
Definition setter (store : loc) (record : setter_arg) (arg2 : call_arg)
  : M unit :=
  let* _ := ExtStore.removeAll store in
  ExtStore.add store record.

(** [record[storeName].load()] *)
Definition call_load (p : option prop) : M unit :=
  match p with
  | Some (PStore l) => ExtStore.load l None
  | _ => throw TypeError
  end.

(** [applyStore(storeConfig)]: the function it returns, called with
    [this = record]. *)
Definition applyStore (me : HasOne) (storeConfig : store_options)
    (record : rid) : M (option prop) :=
  let associatedModel := associatedModel me in
  let storeName := storeName me in
  let* slot := get_prop record storeName in
  let* _ :=
    match slot with
    | None =>
        let config := Ext_apply storeConfig associatedModel in
        let* store := ExtStore.create config in
        let* _ := set_prop record storeName (PStore store) in
        let* _ := set_prop record ("get" ++ Str.capitalize (getName me))
                    (PGetter store) in
        let* _ := set_prop record ("set" ++ Str.capitalize (getName me))
                    (PSetter store) in
        let* p := get_prop record storeName in
        call_load p
    | Some _ => ret tt
    end in
  get_prop record storeName.

(** [getStore()]: the function [applyStore] produced for the configured
    store; the owner model calls it with a record as [this]. *)
Definition getStore (me : HasOne) : rid → M (option prop) :=
  applyStore me (storeConfig me).

(** ** Calls made by the code that owns the record *)

(** [record.getX(args)]: calling a property that is undefined, or that is
    not a function, raises a TypeError.  [applyStore] writes the getter's
    name only with the getter and the setter's name only with the setter
    (the two names differ in their first letter). *)
Definition call_getter (me : HasOne) (record : rid) (args : call_arg)
  : M (option instance) :=
  let* f := get_prop record (getterName me) in
  match f with
  | Some (PGetter store) => getter store args
  | _ => throw TypeError
  end.

(** [record.setX(value, arg2)] *)
Definition call_setter (me : HasOne) (record : rid) (value : setter_arg)
    (arg2 : call_arg) : M unit :=
  let* f := get_prop record (setterName me) in
  match f with
  | Some (PSetter store) => setter store value arg2
  | _ => throw TypeError
  end.

(** What can happen to a world: the owning code calls the store function,
    the getter or the setter of a record, or the data source answers the
    oldest load in flight of a store. *)
Inductive action :=
| AStore (record : rid)
| AGet (record : rid) (args : call_arg)
| ASet (record : rid) (value : setter_arg) (arg2 : call_arg)
| AComplete (l : loc) (o : outcome).

Definition run (me : HasOne) (a : action) (w : world) : world :=
  match a with
  | AStore r => snd (getStore me r w)
  | AGet r args => snd (call_getter me r args w)
  | ASet r v arg2 => snd (call_setter me r v arg2 w)
  | AComplete l o => snd (ExtStore.complete l o w)
  end.

Definition run_all (me : HasOne) (acts : list action) (w : world) : world :=
  fold_left (λ w a, run me a w) acts w.

(** A world in which the relation has not been accessed: records with
    their field data and no installed property, no store, nothing logged. *)
Definition fresh_world (data : gmap nat (gmap string scalar)) : world :=
  {| w_records := (λ d, {| o_data := d; o_props := ∅ |}) <$> data;
     w_heap := [];
     w_log := [] |}.

(** The worlds the association can be in. *)
Inductive reachable (me : HasOne) : world → Prop :=
| reach_fresh data : reachable me (fresh_world data)
| reach_run a w : reachable me w → reachable me (run me a w).

(** ** Observations *)

(** The loads started so far, in order. *)
Definition loads (w : world) : list (loc * store_config) :=
  omap (λ e, match e with EvLoad l q => Some (l, q) | _ => None end) (w_log w).

(** The caller-supplied functions called so far. *)
Definition calls (w : world) : list fn :=
  omap (λ e, match e with EvCall f _ _ => Some f | _ => None end) (w_log w).

(** The owner records saved so far. *)
Definition saves (w : world) : list rid :=
  omap (λ e, match e with EvSave r => Some r | _ => None end) (w_log w).

(** The store bound to a record, when its slot holds one. *)
Definition bound_store (me : HasOne) (w : world) (r : rid) : option loc :=
  match o_props (get_owner w r) !! storeName me with
  | Some (PStore l) => Some l
  | _ => None
  end.

(** The elements a store holds. *)
Definition elements (w : world) (l : loc) : list instance :=
  match w_heap w !! l with
  | Some s => st_data s
  | None => []
  end.

(** [record.get(field)] *)
Definition field (w : world) (r : rid) (f : string) : option scalar :=
  o_data (get_owner w r) !! f.

(** The three property names of one association do not collide.  The
    getter's and the setter's name always differ; the store's name is
    configured separately. *)
Definition names_ok (me : HasOne) : Prop :=
  storeName me ≠ getterName me ∧ storeName me ≠ setterName me.

(** The store [applyStore] creates, once its load has been started. *)
Definition new_store (me : HasOne) : store :=
  {| st_config := Ext_apply (storeConfig me) (associatedModel me);
     st_data := [];
     st_pending := [None];
     st_loaded := false |}.

(** The world after [applyStore] ran its creating branch on [r]. *)
Definition created (me : HasOne) (r : rid) (w : world) : world :=
  let l := length (w_heap w) in
  let o := get_owner w r in
  {| w_records :=
       <[r := {| o_data := o_data o;
                 o_props := <[setterName me := PSetter l]>
                              (<[getterName me := PGetter l]>
                                 (<[storeName me := PStore l]> (o_props o))) |}]>
         (w_records w);
     w_heap := w_heap w ++ [new_store me];
     w_log := w_log w ++ [EvLoad l (Ext_apply (storeConfig me) (associatedModel me))] |}.

(** A store after the data source answered a load of it. *)
Definition settled (s : store) (o : outcome) (rest : list (option load_options))
  : store :=
  match o with
  | Loaded records => {| st_config := st_config s; st_data := records;
                         st_pending := rest; st_loaded := true |}
  | Failed => {| st_config := st_config s; st_data := st_data s;
                 st_pending := rest; st_loaded := st_loaded s |}
  end.

(** What holds of every world the association can be in (for names that
    do not collide): a record's store slot holds a store of the heap, and
    then its getter and setter captured that store; a record without a
    store has no getter and no setter; two records never hold the same
    store; every store has the association's config and only
    loads without options in flight; the log is one load per store. *)
Record inv (me : HasOne) (w : world) : Prop := {
  inv_slot : ∀ r p,
    o_props (get_owner w r) !! storeName me = Some p →
    ∃ l, p = PStore l ∧ l < length (w_heap w)
         ∧ o_props (get_owner w r) !! getterName me = Some (PGetter l)
         ∧ o_props (get_owner w r) !! setterName me = Some (PSetter l);
  inv_unbound : ∀ r,
    o_props (get_owner w r) !! storeName me = None →
    o_props (get_owner w r) !! getterName me = None
    ∧ o_props (get_owner w r) !! setterName me = None;
  inv_inj : ∀ r1 r2 l,
    o_props (get_owner w r1) !! storeName me = Some (PStore l) →
    o_props (get_owner w r2) !! storeName me = Some (PStore l) →
    r1 = r2;
  inv_heap : ∀ l s,
    w_heap w !! l = Some s →
    st_config s = Ext_apply (storeConfig me) (associatedModel me)
    ∧ ∀ o, o ∈ st_pending s → o = None;
  inv_log :
    w_log w = (λ l, EvLoad l (Ext_apply (storeConfig me) (associatedModel me)))
                <$> seq 0 (length (w_heap w))
}.

(** How many loads of store [l] were started so far. *)
Definition load_count (l : loc) (w : world) : nat :=
  length (filter (λ x, x.1 = l) (loads w)).

(** An action that is neither a setter call on record [r] nor the
    completion of a load of store [l]. *)
Definition leaves_alone (r : rid) (l : loc) (a : action) : Prop :=
  match a with
  | ASet r' _ _ => r' ≠ r
  | AComplete l' _ => l' ≠ l
  | _ => True
  end.

(** [record.set(f, k)] on an owner record's field data. *)
Definition set_field (w : world) (r : rid) (f : string) (k : scalar) : world :=
  let o := get_owner w r in
  {| w_records := <[r := {| o_data := <[f := k]> (o_data o);
                            o_props := o_props o |}]> (w_records w);
     w_heap := w_heap w;
     w_log := w_log w |}.

(** Whether a load of store [l] has completed. *)
Definition loaded (w : world) (l : loc) : bool :=
  match w_heap w !! l with
  | Some s => st_loaded s
  | None => false
  end.

(** ** A data source *)

#[global] Instance scalar_eq_dec : EqDecision scalar.
Proof. solve_decision. Defined.

Fixpoint assoc (fs : list (string * scalar)) (f : string) : option scalar :=
  match fs with
  | [] => None
  | (g, v) :: rest => if decide (g = f) then Some v else assoc rest f
  end.

(** [instance.get(f)] *)
Definition field_of (a : instance) (f : string) : option scalar :=
  match inst_data a with
  | RFields fs => assoc fs f
  | RScalar _ => None
  end.

Definition matches (q : store_config) (a : instance) : bool :=
  bool_decide (inst_model a = sc_model q)
  && forallb (λ f, bool_decide (field_of a (property f) = Some (value f)))
       (sc_filters q).

(** Modelled from the spec: the data source behind the Loadable Collection,
    which "performs the actual fetch": it answers a request with the
    records of its table that are of the requested model and pass every
    filter of the request, in the table's order. *)
Definition serve (table : list instance) (q : store_config) : outcome :=
  Loaded (List.filter (matches q) table).

Definition answer (o : outcome) : list instance :=
  match o with
  | Loaded records => records
  | Failed => []
  end.

(** The association with other key names, everything else as it is. *)
Definition with_keys (me : HasOne) (pk fk : string) : HasOne :=
  {| name := name me; associatedName := associatedName me;
     associatedModel := associatedModel me;
     primaryKey := pk; foreignKey := fk;
     storeName := storeName me; storeConfig := storeConfig me |}.

(** ** The claims that do not hold, as the spec states them *)

(** C1 as stated: the getter, called with a callback on a record whose
    foreign key is [key], answers without an error, starts exactly one
    load, that load asks for the associated model by the primary key
    [key], and when the load completes with a record the callback has
    been called. *)
Definition getter_loads_by_key (me : HasOne) (w : world) (r : rid) (cb : fn)
  : Prop :=
  ∃ key x w',
    field w r (foreignKey me) = Some key
    ∧ call_getter me r (CallFunction cb) w = (Ok x, w')
    ∧ ∃ l q,
        loads w' = (loads w ++ [(l, q)])%list
        ∧ sc_model q = associatedModel me
        ∧ Filter (primaryKey me) key ∈ sc_filters q
        ∧ ∀ a, cb ∈ calls (snd (ExtStore.complete l (Loaded [a]) w')).

(** C6 as stated: when the load of the record's store fails, the failure
    and callback functions given to the getter are called. *)
Definition failure_reported (me : HasOne) (w : world) (r : rid) (l : loc)
    (o : load_options) : Prop :=
  let w1 := snd (call_getter me r (CallOptions o) w) in
  let w2 := snd (ExtStore.complete l Failed w1) in
  (∀ f, failure o = Some f → f ∈ calls w2)
  ∧ (∀ c, callback o = Some c → c ∈ calls w2).

(** C8 as stated: the record a relation resolves to is the one whose
    primary-key field holds the value of the owner's foreign-key field. *)
Definition resolves_through_keys (me : HasOne) (table : list instance)
    (w : world) (r : rid) : Prop :=
  ∀ key, field w r (foreignKey me) = Some key →
    let l := length (w_heap w) in
    let w1 := snd (getStore me r w) in
    ∀ q, last (loads w1) = Some (l, q) →
      let w2 := snd (ExtStore.complete l (serve table q) w1) in
      ∃ a, fst (call_getter me r CallNone w2) = Ok (Some a)
           ∧ field_of a (primaryKey me) = Some key.

(** The world after [applyStore] ran its creating branch on [r] when the
    store's name is also the getter's or the setter's name: the slot was
    overwritten by the closure, so [record[storeName].load()] raised and
    no load was started. *)
Definition collided (me : HasOne) (r : rid) (w : world) : world :=
  {| w_records := w_records (created me r w);
     w_heap := w_heap w ++ [{| st_config := Ext_apply (storeConfig me)
                                              (associatedModel me);
                               st_data := []; st_pending := [];
                               st_loaded := false |}];
     w_log := w_log w |}.

(** Two associations of one owner model whose six property names are all
    different. *)
Definition disjoint_names (me1 me2 : HasOne) : Prop :=
  NoDup [storeName me1; getterName me1; setterName me1;
         storeName me2; getterName me2; setterName me2].

(** ** Examples used below *)

Definition person_address : HasOne :=
  {| name := None; associatedName := "Address"; associatedModel := "Address";
     primaryKey := "id"; foreignKey := "address_id";
     storeName := "addressStore";
     storeConfig := {| so_model := None; so_filters := []; so_other := [] |} |}.

Definition address (id : Z) (street : string) : instance :=
  {| inst_model := "Address";
     inst_data := RFields [("id", SNum id); ("street", SStr street)] |}.

(** [{ type: 'hasOne', model: 'Address', primaryKey: 'unique_id',
      foreignKey: 'addr_id' }] *)
Definition person_custom : HasOne :=
  with_keys person_address "unique_id" "addr_id".

Definition custom_address (unique_id : Z) (street : string) : instance :=
  {| inst_model := "Address";
     inst_data := RFields [("unique_id", SNum unique_id);
                           ("street", SStr street)] |}.

Definition custom_world : world :=
  fresh_world {[ 1%nat := {[ "id" := SNum 100; "addr_id" := SNum 20 ]} ]}.

(** [{ type: 'hasOne', model: 'Vehicle' }] on the same owner model. *)
Definition person_vehicle : HasOne :=
  {| name := None; associatedName := "Vehicle"; associatedModel := "Vehicle";
     primaryKey := "id"; foreignKey := "vehicle_id";
     storeName := "vehicleStore";
     storeConfig := {| so_model := None; so_filters := []; so_other := [] |} |}.

(** [{ type: 'hasOne', model: 'Address', name: 'Address',
      storeName: 'billingStore' }]: a second relation whose name differs
    from "address" in the case of its first letter. *)
Definition person_billing : HasOne :=
  {| name := Some "Address"; associatedName := "Address";
     associatedModel := "Address";
     primaryKey := "id"; foreignKey := "billing_id";
     storeName := "billingStore";
     storeConfig := {| so_model := None; so_filters := []; so_other := [] |} |}.

(** [{ type: 'hasOne', model: 'Address', storeName: 'getAddress' }] *)
Definition person_colliding : HasOne :=
  {| name := None; associatedName := "Address"; associatedModel := "Address";
     primaryKey := "id"; foreignKey := "address_id";
     storeName := "getAddress";
     storeConfig := {| so_model := None; so_filters := []; so_other := [] |} |}.

(** [Ext.create('Person', {id: 100, address_id: 20})] as record 1. *)
Definition john_world : world :=
  fresh_world {[ 1%nat := {[ "id" := SNum 100; "address_id" := SNum 20 ]} ]}.

(** * Proofs *)

Section Basics.

Context (me : HasOne).

Lemma getter_setter_names_differ : getterName me ≠ setterName me.
Proof.
  unfold getterName, setterName. intros H.
  cbv [String.append] in H. discriminate H.
Qed.

Lemma get_owner_insert r o w h g :
  get_owner {| w_records := <[r := o]> (w_records w); w_heap := h; w_log := g |} r = o.
Proof. unfold get_owner. simpl. by rewrite lookup_insert_eq. Qed.

Lemma applyStore_bound r w p :
  o_props (get_owner w r) !! storeName me = Some p →
  getStore me r w = (Ok (Some p), w).
Proof.
  intros H. unfold getStore, applyStore, bind, get_prop, ret. by rewrite !H.
Qed.

Lemma applyStore_unbound r w :
  names_ok me →
  o_props (get_owner w r) !! storeName me = None →
  getStore me r w = (Ok (Some (PStore (length (w_heap w)))), created me r w).
Proof.
  intros [Hg Hs] H.
  assert (Hl : ∀ o : gmap string prop,
    <[setterName me := PSetter (length (w_heap w))]>
      (<[getterName me := PGetter (length (w_heap w))]>
         (<[storeName me := PStore (length (w_heap w))]> o)) !! storeName me
    = Some (PStore (length (w_heap w)))).
  { intros o. rewrite lookup_insert_ne by (apply not_eq_sym, Hs).
    rewrite lookup_insert_ne by (apply not_eq_sym, Hg).
    apply lookup_insert_eq. }
  unfold getStore, applyStore, bind, get_prop. rewrite !H.
  unfold ExtStore.create, set_prop, created, get_owner in *.
  cbn [w_records w_heap w_log].
  rewrite !lookup_insert_eq. cbn [default from_option id o_props o_data].
  rewrite !insert_insert_eq, Hl.
  unfold call_load, ExtStore.load, bind, put_store, emit.
  cbn [w_records w_heap w_log].
  rewrite lookup_app_r, Nat.sub_diag by lia.
  cbn [lookup list_lookup w_records st_config st_data st_pending st_loaded].
  rewrite lookup_insert_eq. cbn [default from_option id o_props o_data].
  rewrite Hl, insert_app_r_alt, Nat.sub_diag by lia. reflexivity.
Qed.

Lemma created_owner_same r w :
  get_owner (created me r w) r =
  {| o_data := o_data (get_owner w r);
     o_props := <[setterName me := PSetter (length (w_heap w))]>
                  (<[getterName me := PGetter (length (w_heap w))]>
                     (<[storeName me := PStore (length (w_heap w))]>
                        (o_props (get_owner w r)))) |}.
Proof. unfold created, get_owner. cbn [w_records]. by rewrite lookup_insert_eq. Qed.

Lemma created_owner_other r r' w :
  r ≠ r' → get_owner (created me r w) r' = get_owner w r'.
Proof.
  intros Hr. unfold created, get_owner. cbn [w_records].
  by rewrite lookup_insert_ne.
Qed.

Lemma created_slots r w :
  names_ok me →
  let o := o_props (get_owner (created me r w) r) in
  o !! storeName me = Some (PStore (length (w_heap w)))
  ∧ o !! getterName me = Some (PGetter (length (w_heap w)))
  ∧ o !! setterName me = Some (PSetter (length (w_heap w))).
Proof.
  intros [Hg Hs]. rewrite created_owner_same. cbn [o_props]. repeat split.
  - rewrite lookup_insert_ne by (apply not_eq_sym, Hs).
    rewrite lookup_insert_ne by (apply not_eq_sym, Hg).
    apply lookup_insert_eq.
  - rewrite lookup_insert_ne by (apply not_eq_sym, getter_setter_names_differ).
    apply lookup_insert_eq.
  - apply lookup_insert_eq.
Qed.

(** The getter reads and changes nothing. *)
Lemma call_getter_world r args w : snd (call_getter me r args w) = w.
Proof.
  unfold call_getter, bind, get_prop.
  destruct (o_props (get_owner w r) !! getterName me) as [[]|]; reflexivity.
Qed.

Lemma call_getter_installed r args w l :
  o_props (get_owner w r) !! getterName me = Some (PGetter l) →
  call_getter me r args w = (Ok (head (elements w l)), w).
Proof.
  intros H. unfold call_getter, bind, get_prop. rewrite H.
  unfold getter, ExtStore.first, elements.
  by destruct (w_heap w !! l).
Qed.

Lemma removeAll_eq l s w :
  w_heap w !! l = Some s →
  ExtStore.removeAll l w =
  (Ok tt, {| w_records := w_records w;
             w_heap := <[l := {| st_config := st_config s; st_data := [];
                                 st_pending := st_pending s;
                                 st_loaded := st_loaded s |}]> (w_heap w);
             w_log := w_log w |}).
Proof. intros H. unfold ExtStore.removeAll. by rewrite H. Qed.

Lemma setter_eq l s v arg2 w :
  w_heap w !! l = Some s →
  setter l v arg2 w =
  (Ok tt, {| w_records := w_records w;
             w_heap := <[l := {| st_config := st_config s;
                                 st_data := [ExtStore.element_of (st_config s) v];
                                 st_pending := st_pending s;
                                 st_loaded := st_loaded s |}]> (w_heap w);
             w_log := w_log w |}).
Proof.
  intros H. unfold setter, bind. rewrite (removeAll_eq _ _ _ H).
  unfold ExtStore.add, put_store. cbn [w_heap w_records w_log].
  rewrite list_lookup_insert_eq by (by eapply lookup_lt_Some).
  cbn [st_config st_data st_pending st_loaded app].
  by rewrite list_insert_insert_eq.
Qed.

Lemma setter_dangling l v arg2 w :
  w_heap w !! l = None → setter l v arg2 w = (Ok tt, w).
Proof.
  intros H. unfold setter, bind, ExtStore.removeAll, ExtStore.add.
  by rewrite !H.
Qed.

(** The setter touches no record and logs nothing, whatever it is given. *)
Lemma call_setter_frame r v arg2 w :
  w_records (snd (call_setter me r v arg2 w)) = w_records w
  ∧ w_log (snd (call_setter me r v arg2 w)) = w_log w
  ∧ length (w_heap (snd (call_setter me r v arg2 w))) = length (w_heap w).
Proof.
  unfold call_setter, bind, get_prop.
  destruct (o_props (get_owner w r) !! setterName me) as [[| |l]|];
    cbn [snd throw]; try done.
  destruct (w_heap w !! l) as [s|] eqn:E.
  - rewrite (setter_eq _ _ _ _ _ E). cbn [snd w_records w_log w_heap].
    by rewrite length_insert.
  - by rewrite (setter_dangling _ _ _ _ E).
Qed.

Lemma call_setter_heap r v arg2 w l s :
  w_heap (snd (call_setter me r v arg2 w)) !! l = Some s →
  ∃ s0, w_heap w !! l = Some s0 ∧ st_config s = st_config s0
        ∧ st_pending s = st_pending s0 ∧ st_loaded s = st_loaded s0.
Proof.
  unfold call_setter, bind, get_prop.
  destruct (o_props (get_owner w r) !! setterName me) as [[| |l']|];
    cbn [snd throw]; eauto.
  destruct (w_heap w !! l') as [s'|] eqn:E.
  - rewrite (setter_eq _ _ _ _ _ E). cbn [snd w_heap].
    destruct (decide (l' = l)) as [->|Hne].
    + rewrite list_lookup_insert_eq by (by eapply lookup_lt_Some).
      intros [= <-]. eauto.
    + rewrite list_lookup_insert_ne by done. eauto.
  - rewrite (setter_dangling _ _ _ _ E). eauto.
Qed.

Lemma complete_idle l o w :
  (∀ s, w_heap w !! l = Some s → st_pending s = []) →
  ExtStore.complete l o w = (Ok tt, w).
Proof.
  intros H. unfold ExtStore.complete.
  destruct (w_heap w !! l) as [s|]; [|done]. by rewrite (H s eq_refl).
Qed.

Lemma complete_quiet l s rest o w :
  w_heap w !! l = Some s →
  st_pending s = None :: rest →
  ExtStore.complete l o w =
  (Ok tt, {| w_records := w_records w;
             w_heap := <[l := settled s o rest]> (w_heap w);
             w_log := w_log w |}).
Proof.
  intros H Hp. unfold ExtStore.complete. rewrite H, Hp.
  destruct o; reflexivity.
Qed.

Lemma fresh_world_props data r :
  o_props (get_owner (fresh_world data) r) = ∅.
Proof.
  unfold get_owner, fresh_world. cbn [w_records]. rewrite lookup_fmap.
  by destruct (data !! r).
Qed.

Lemma fresh_world_field data r d f :
  data !! r = Some d → field (fresh_world data) r f = d !! f.
Proof.
  intros H. unfold field, get_owner, fresh_world. cbn [w_records].
  by rewrite lookup_fmap, H.
Qed.

Lemma inv_fresh data : inv me (fresh_world data).
Proof.
  split.
  - intros r p. by rewrite fresh_world_props, lookup_empty.
  - intros r. by rewrite fresh_world_props, !lookup_empty.
  - intros r1 r2 l. by rewrite fresh_world_props, lookup_empty.
  - intros l s. cbn [fresh_world w_heap]. by rewrite lookup_nil.
  - reflexivity.
Qed.

Lemma inv_same_records w w' :
  w_records w' = w_records w →
  length (w_heap w') = length (w_heap w) →
  w_log w' = w_log w →
  (∀ l s, w_heap w' !! l = Some s →
          ∃ s0, w_heap w !! l = Some s0 ∧ st_config s = st_config s0
                ∧ (∀ o, o ∈ st_pending s → o ∈ st_pending s0)) →
  inv me w → inv me w'.
Proof.
  intros Hr Hl Hg Hh [I1 I0 I2 I3 I4].
  assert (Ho : ∀ r, get_owner w' r = get_owner w r)
    by (intros r; unfold get_owner; by rewrite Hr).
  split.
  - intros r p. rewrite Ho, Hl. apply I1.
  - intros r. rewrite Ho. apply I0.
  - intros r1 r2 l. rewrite !Ho. apply I2.
  - intros l s Hs. destruct (Hh l s Hs) as (s0 & H0 & Hc & Hp).
    destruct (I3 l s0 H0) as [Hc0 Hp0]. split; [congruence|].
    intros o Ho'. apply Hp0, Hp, Ho'.
  - by rewrite Hg, Hl.
Qed.

Lemma inv_call_getter r args w : inv me w → inv me (snd (call_getter me r args w)).
Proof. by rewrite call_getter_world. Qed.

Lemma inv_call_setter r v arg2 w :
  inv me w → inv me (snd (call_setter me r v arg2 w)).
Proof.
  destruct (call_setter_frame r v arg2 w) as (Hr & Hg & Hl).
  apply inv_same_records; try done.
  intros l s Hs. destruct (call_setter_heap _ _ _ _ _ _ Hs) as (s0 & ? & ? & Hp & ?).
  exists s0. repeat split; try done. intros o. by rewrite Hp.
Qed.

Lemma inv_complete l o w : inv me w → inv me (snd (ExtStore.complete l o w)).
Proof.
  intros I. destruct (w_heap w !! l) as [s|] eqn:E.
  2:{ rewrite complete_idle; [done|]. intros s. by rewrite E. }
  destruct (st_pending s) as [|opt rest] eqn:Ep.
  { rewrite complete_idle; [done|]. intros s'. rewrite E. by intros [= <-]. }
  assert (opt = None) as ->.
  { apply (inv_heap _ _ I l s E). rewrite Ep. left. }
  rewrite (complete_quiet _ _ _ _ _ E Ep). cbn [snd].
  refine (inv_same_records _ _ _ _ _ _ I); cbn [w_records w_heap w_log]; try done.
  - by rewrite length_insert.
  - intros l' s'. destruct (decide (l = l')) as [<-|Hne].
    + rewrite list_lookup_insert_eq by (by eapply lookup_lt_Some).
      intros [= <-]. exists s. split; [done|].
      destruct o; cbn [settled st_config st_pending]; (split; [done|]);
        intros x Hx; rewrite Ep; by right.
    + rewrite list_lookup_insert_ne by done. eauto.
Qed.

Lemma inv_created r w :
  names_ok me →
  o_props (get_owner w r) !! storeName me = None →
  inv me w → inv me (created me r w).
Proof.
  intros Hn Hu [I1 I0 I2 I3 I4].
  destruct (created_slots r w Hn) as (Hs & Hg & Hse).
  assert (Hlen : length (w_heap (created me r w)) = S (length (w_heap w))).
  { unfold created. cbn [w_heap]. rewrite length_app. simpl. lia. }
  split.
  - intros r' p. destruct (decide (r = r')) as [<-|Hne].
    + rewrite Hs. intros [= <-]. exists (length (w_heap w)).
      rewrite Hlen. repeat split; try done. lia.
    + rewrite created_owner_other by done. intros Hp.
      destruct (I1 r' p Hp) as (l & -> & Hl & ? & ?).
      exists l. rewrite Hlen. repeat split; try done. lia.
  - intros r'. destruct (decide (r = r')) as [<-|Hne].
    + by rewrite Hs.
    + rewrite created_owner_other by done. apply I0.
  - intros r1 r2 l.
    destruct (decide (r = r1)) as [<-|H1], (decide (r = r2)) as [<-|H2];
      try done.
    + rewrite Hs, created_owner_other by done. intros [= <-] Hp.
      destruct (I1 _ _ Hp) as (l & [= <-] & Hl & _). lia.
    + rewrite Hs, created_owner_other by done. intros Hp [= <-].
      destruct (I1 _ _ Hp) as (l & [= <-] & Hl & _). lia.
    + rewrite !created_owner_other by done. apply I2.
  - intros l s. unfold created. cbn [w_heap].
    intros Hl. apply lookup_app_Some in Hl as [Hl|[_ Hl]]; [by apply (I3 l)|].
    apply list_lookup_singleton_Some in Hl as [_ <-].
    split; [done|]. cbn [new_store st_pending]. intros o Ho.
    by apply list_elem_of_singleton in Ho.
  - rewrite Hlen, seq_S, fmap_app. unfold created. cbn [w_log w_heap].
    by rewrite I4.
Qed.

Lemma inv_applyStore r w :
  names_ok me → inv me w → inv me (snd (getStore me r w)).
Proof.
  intros Hn I. destruct (o_props (get_owner w r) !! storeName me) as [p|] eqn:E.
  - by rewrite (applyStore_bound _ _ _ E).
  - rewrite (applyStore_unbound _ _ Hn E). by apply inv_created.
Qed.

Lemma inv_run a w : names_ok me → inv me w → inv me (run me a w).
Proof.
  intros Hn I. destruct a; cbn [run].
  - by apply inv_applyStore.
  - by apply inv_call_getter.
  - by apply inv_call_setter.
  - by apply inv_complete.
Qed.

(** The invariant holds in every reachable world. *)
Lemma reachable_inv w : names_ok me → reachable me w → inv me w.
Proof.
  intros Hn H. induction H as [data|a w _ IH].
  - apply inv_fresh.
  - by apply inv_run.
Qed.

Lemma bound_store_Some w r l :
  bound_store me w r = Some l ↔
  o_props (get_owner w r) !! storeName me = Some (PStore l).
Proof.
  unfold bound_store.
  destruct (o_props (get_owner w r) !! storeName me) as [[]|]; naive_solver.
Qed.

(** Once a record's slot is filled it stays as it is. *)
Lemma run_slot a w r p :
  names_ok me →
  o_props (get_owner w r) !! storeName me = Some p →
  o_props (get_owner (run me a w) r) !! storeName me = Some p.
Proof.
  intros Hn H. destruct a as [r'|r' args|r' v arg2|l o]; cbn [run].
  - destruct (decide (r' = r)) as [->|Hne].
    + by rewrite (applyStore_bound _ _ _ H).
    + destruct (o_props (get_owner w r') !! storeName me) as [p'|] eqn:E.
      * by rewrite (applyStore_bound _ _ _ E).
      * rewrite (applyStore_unbound _ _ Hn E). cbn [snd].
        by rewrite created_owner_other.
  - by rewrite call_getter_world.
  - destruct (call_setter_frame r' v arg2 w) as (Hr & _).
    unfold get_owner in *. by rewrite Hr.
  - unfold ExtStore.complete.
    destruct (w_heap w !! l) as [s|]; [|done].
    destruct (st_pending s) as [|opt rest]; [done|].
    destruct o, (opt ≫= callback), (opt ≫= success), (opt ≫= failure); exact H.
Qed.

Lemma run_all_slot acts w r p :
  names_ok me →
  o_props (get_owner w r) !! storeName me = Some p →
  o_props (get_owner (run_all me acts w) r) !! storeName me = Some p.
Proof.
  intros Hn. revert w. induction acts as [|a acts IH]; intros w H; [done|].
  cbn [run_all fold_left]. apply IH. by apply run_slot.
Qed.

Lemma inv_run_all acts w : names_ok me → inv me w → inv me (run_all me acts w).
Proof.
  intros Hn. revert w. induction acts as [|a acts IH]; intros w I; [done|].
  cbn [run_all fold_left]. apply IH. by apply inv_run.
Qed.

(** An action that leaves [r] and its store [l] alone does not change
    what is stored at [l]. *)
Lemma run_store_alone a w r l :
  names_ok me → inv me w →
  o_props (get_owner w r) !! storeName me = Some (PStore l) →
  leaves_alone r l a →
  w_heap (run me a w) !! l = w_heap w !! l.
Proof.
  intros Hn I H Ha.
  destruct (inv_slot _ _ I r _ H) as (l0 & [= <-] & Hl & _).
  destruct a as [r'|r' args|r' v arg2|l' o]; cbn [run leaves_alone] in *.
  - destruct (o_props (get_owner w r') !! storeName me) as [p'|] eqn:E.
    + by rewrite (applyStore_bound _ _ _ E).
    + rewrite (applyStore_unbound _ _ Hn E). cbn [snd created w_heap].
      by rewrite lookup_app_l.
  - by rewrite call_getter_world.
  - unfold call_setter, bind, get_prop.
    destruct (o_props (get_owner w r') !! setterName me) as [p|] eqn:E;
      [|done].
    destruct (o_props (get_owner w r') !! storeName me) as [q|] eqn:Eq.
    2:{ destruct (inv_unbound _ _ I r' Eq) as [_ Hs]. congruence. }
    destruct (inv_slot _ _ I r' _ Eq) as (l' & -> & Hl' & _ & Hs).
    rewrite Hs in E. injection E as <-.
    assert (l' ≠ l).
    { intros ->. apply Ha. by apply (inv_inj _ _ I r' r l). }
    destruct (w_heap w !! l') as [s|] eqn:Es.
    + rewrite (setter_eq _ _ _ _ _ Es). cbn [snd w_heap].
      by rewrite list_lookup_insert_ne.
    + by rewrite (setter_dangling _ _ _ _ Es).
  - destruct (w_heap w !! l') as [s|] eqn:E.
    2:{ rewrite complete_idle; [done|]. intros s. by rewrite E. }
    destruct (st_pending s) as [|opt rest] eqn:Ep.
    { rewrite complete_idle; [done|]. intros s'. rewrite E. by intros [= <-]. }
    assert (opt = None) as ->.
    { apply (inv_heap _ _ I l' s E). rewrite Ep. left. }
    rewrite (complete_quiet _ _ _ _ _ E Ep). cbn [snd w_heap].
    by rewrite list_lookup_insert_ne.
Qed.

Lemma run_all_store_alone acts w r l :
  names_ok me → inv me w →
  o_props (get_owner w r) !! storeName me = Some (PStore l) →
  Forall (leaves_alone r l) acts →
  w_heap (run_all me acts w) !! l = w_heap w !! l.
Proof.
  intros Hn. revert w.
  induction acts as [|a acts IH]; intros w I H Ha; [done|].
  apply Forall_cons in Ha as [Ha Hs]. cbn [run_all fold_left].
  fold (run_all me acts (run me a w)).
  rewrite IH; [by eapply run_store_alone| by apply inv_run
              | by apply run_slot | done].
Qed.

(** The log of a reachable world, read as loads, calls and saves. *)
Lemma inv_loads w :
  inv me w →
  loads w = (λ l, (l, Ext_apply (storeConfig me) (associatedModel me)))
              <$> seq 0 (length (w_heap w)).
Proof.
  intros I. unfold loads. rewrite (inv_log _ _ I).
  induction (seq 0 (length (w_heap w))) as [|x xs IH]; [done|].
  cbn. by rewrite <- IH.
Qed.

Lemma inv_calls w : inv me w → calls w = [] ∧ saves w = [].
Proof.
  intros I. unfold calls, saves. rewrite (inv_log _ _ I).
  induction (seq 0 (length (w_heap w))) as [|x xs [IH1 IH2]]; [done|].
  by cbn.
Qed.

Lemma inv_load_count w l :
  inv me w →
  load_count l w = if decide (l < length (w_heap w)) then 1 else 0.
Proof.
  intros I. unfold load_count. rewrite (inv_loads _ I).
  induction (length (w_heap w)) as [|n IH]; [done|].
  rewrite seq_S, fmap_app, filter_app, length_app, IH. cbn [plus fmap list_fmap].
  rewrite filter_cons, filter_nil. cbn [fst].
  repeat case_decide; cbn [length]; lia.
Qed.

Lemma load_records l options w :
  w_records (snd (ExtStore.load l options w)) = w_records w.
Proof. unfold ExtStore.load. by destruct (w_heap w !! l). Qed.

Lemma call_load_records p w : w_records (snd (call_load p w)) = w_records w.
Proof. destruct p as [[]|]; cbn [call_load throw snd]; auto using load_records. Qed.

(** Whatever the store's name is, the creating branch leaves the getter
    and the setter under their names. *)
Lemma applyStore_installs r w :
  o_props (get_owner w r) !! storeName me = None →
  o_props (get_owner (snd (getStore me r w)) r) !! getterName me
    = Some (PGetter (length (w_heap w)))
  ∧ o_props (get_owner (snd (getStore me r w)) r) !! setterName me
    = Some (PSetter (length (w_heap w))).
Proof.
  intros H.
  assert (Hr : w_records (snd (getStore me r w)) = w_records (created me r w)).
  { unfold getStore, applyStore, bind, get_prop. rewrite !H.
    unfold ExtStore.create, set_prop, created, get_owner.
    cbn [w_records w_heap w_log].
    rewrite !lookup_insert_eq. cbn [default from_option id o_props o_data].
    rewrite !insert_insert_eq.
    match goal with
    | |- context [call_load ?p ?w0] =>
        pose proof (call_load_records p w0) as Hc;
        destruct (call_load p w0) as [[[]|e] w1]
    end; cbn [snd w_records] in *; exact Hc. }
  assert (Ho : get_owner (snd (getStore me r w)) r
               = get_owner (created me r w) r)
    by (unfold get_owner; by rewrite Hr).
  rewrite Ho, created_owner_same.
  cbn [o_props]. split.
  - rewrite lookup_insert_ne by (apply not_eq_sym, getter_setter_names_differ).
    apply lookup_insert_eq.
  - apply lookup_insert_eq.
Qed.

(** In a reachable world the store function always returns a store, the
    one in the record's slot afterwards. *)
Lemma applyStore_returns r w :
  names_ok me → inv me w →
  ∃ l, fst (getStore me r w) = Ok (Some (PStore l))
       ∧ o_props (get_owner (snd (getStore me r w)) r) !! storeName me
         = Some (PStore l).
Proof.
  intros Hn I. destruct (o_props (get_owner w r) !! storeName me) as [p|] eqn:E.
  - destruct (inv_slot _ _ I r p E) as (l & -> & _).
    exists l. by rewrite (applyStore_bound _ _ _ E).
  - exists (length (w_heap w)). rewrite (applyStore_unbound _ _ Hn E).
    split; [done|]. apply (created_slots r w Hn).
Qed.

(** The setter of a bound record: the store ends up with the one element. *)
Lemma call_setter_bound r l v arg2 w :
  names_ok me → inv me w →
  o_props (get_owner w r) !! storeName me = Some (PStore l) →
  call_setter me r v arg2 w = setter l v arg2 w
  ∧ fst (call_setter me r v arg2 w) = Ok tt
  ∧ elements (snd (call_setter me r v arg2 w)) l
    = [ExtStore.element_of (Ext_apply (storeConfig me) (associatedModel me)) v].
Proof.
  intros Hn I H.
  destruct (inv_slot _ _ I r _ H) as (l' & [= <-] & Hl & _ & Hs).
  assert (Hc : call_setter me r v arg2 w = setter l v arg2 w).
  { unfold call_setter, bind, get_prop. by rewrite Hs. }
  destruct (lookup_lt_is_Some_2 _ _ Hl) as [s Es].
  destruct (inv_heap _ _ I l s Es) as [Hcfg _].
  rewrite Hc, (setter_eq _ _ _ _ _ Es). cbn [fst snd]. repeat split.
  unfold elements. cbn [w_heap].
  rewrite list_lookup_insert_eq by done. cbn [st_data]. by rewrite Hcfg.
Qed.

Lemma set_field_props w r f k r' :
  o_props (get_owner (set_field w r f k) r') = o_props (get_owner w r').
Proof.
  unfold set_field, get_owner at 1. cbn [w_records].
  destruct (decide (r = r')) as [<-|Hne].
  - by rewrite lookup_insert_eq.
  - by rewrite lookup_insert_ne.
Qed.

End Basics.

(** A request without filters is answered with the whole table, when the
    table holds records of the requested model. *)
Lemma serve_all (table : list instance) (q : store_config) :
  sc_filters q = [] →
  Forall (λ a, inst_model a = sc_model q) table →
  serve table q = Loaded table.
Proof.
  intros Hf Hm. unfold serve, matches. rewrite Hf. cbn [forallb]. f_equal.
  induction Hm as [|a t Ha _ IH]; [done|].
  cbn [List.filter]. rewrite bool_decide_eq_true_2 by done.
  cbn [andb]. f_equal. exact IH.
Qed.

Lemma person_address_names_ok : names_ok person_address.
Proof. split; intros H; vm_compute in H; discriminate H. Qed.

(** * The claims *)

(** ** Names *)

(** C9: name derivation returns the explicit name when one is given and
    it is not empty, and otherwise the lower-cased name of the associated
    type; the store function installs the getter under "get" plus the
    capitalized relation name and the setter under "set" plus the
    capitalized relation name; for the associated type Address and no
    explicit name the relation is "address" and the functions are
    "getAddress" and "setAddress". *)
Theorem C9_name_derivation (me : HasOne) (explicit : string) (r : rid)
    (w : world) :
  explicit ≠ "" →
  o_props (get_owner w r) !! storeName me = None →
  applyName me (Some explicit) = explicit
  ∧ applyName me (Some "") = Str.toLowerCase (associatedName me)
  ∧ applyName me None = Str.toLowerCase (associatedName me)
  ∧ (let installed := o_props (get_owner (snd (getStore me r w)) r) in
     installed !! ("get" ++ Str.capitalize (applyName me (name me)))
       = Some (PGetter (length (w_heap w)))
     ∧ installed !! ("set" ++ Str.capitalize (applyName me (name me)))
       = Some (PSetter (length (w_heap w))))
  ∧ (associatedName me = "Address" → falsy (name me) = true →
     applyName me (name me) = "address"
     ∧ getterName me = "getAddress" ∧ setterName me = "setAddress").
Proof.
  intros Hne Hslot. repeat split.
  - unfold applyName, falsy. by rewrite decide_False.
  - apply (applyStore_installs me r w Hslot).
  - apply (applyStore_installs me r w Hslot).
  - unfold applyName. rewrite H0, H. reflexivity.
  - unfold getterName, getName, applyName. rewrite H0, H. reflexivity.
  - unfold setterName, getName, applyName. rewrite H0, H. reflexivity.
Qed.

Lemma C9_name_derivation_witness :
  "vehicle" ≠ ""
  ∧ o_props (get_owner john_world 1) !! storeName person_address = None
  ∧ applyName person_address (Some "vehicle") = "vehicle"
  ∧ o_props (get_owner (snd (getStore person_address 1 john_world)) 1)
      !! "getAddress" = Some (PGetter 0)
  ∧ o_props (get_owner (snd (getStore person_address 1 john_world)) 1)
      !! "setAddress" = Some (PSetter 0).
Proof.
  assert (H1 : "vehicle" ≠ "") by discriminate.
  assert (H2 : o_props (get_owner john_world 1) !! storeName person_address
               = None) by reflexivity.
  pose proof (C9_name_derivation person_address "vehicle" 1 john_world H1 H2)
    as (Ha & _ & _ & (Hg & Hs) & _).
  exact (conj H1 (conj H2 (conj Ha (conj Hg Hs)))).
Defined.

(** ** The setter's frame *)

(** C10: the generated setter only changes what the Bound Collection
    holds: every record, with every field (the foreign key among them), is
    as before, nothing is logged (no save, no call of a caller's function,
    no load), and a second argument makes no difference. *)
Theorem C10_setter_frame (me : HasOne) (r : rid) (v : setter_arg)
    (arg2 : call_arg) (w : world) :
  let w' := snd (call_setter me r v arg2 w) in
  w_records w' = w_records w
  ∧ (∀ r' f, field w' r' f = field w r' f)
  ∧ field w' r (foreignKey me) = field w r (foreignKey me)
  ∧ w_log w' = w_log w
  ∧ saves w' = saves w
  ∧ calls w' = calls w
  ∧ loads w' = loads w
  ∧ call_setter me r v arg2 w = call_setter me r v CallNone w.
Proof.
  destruct (call_setter_frame me r v arg2 w) as (Hr & Hg & _).
  assert (Hf : ∀ r' f, field (snd (call_setter me r v arg2 w)) r' f
                       = field w r' f).
  { intros r' f. unfold field, get_owner. by rewrite Hr. }
  cbv zeta. unfold saves, calls, loads. rewrite Hg.
  repeat split; auto.
Qed.

(** ** The getter *)

(** C7: where a record has its Bound Collection, the getter returns the
    first element the collection holds, or nothing when it holds none; it
    starts no load and changes nothing; and from the creation of the
    collection on, as long as no load of it has completed (and nothing was
    set), the getter returns nothing and raises no error. *)
Theorem C7_getter_first_element (me : HasOne) (r : rid) (l : loc)
    (args : call_arg) (w : world) :
  names_ok me → reachable me w → bound_store me w r = Some l →
  call_getter me r args w = (Ok (head (elements w l)), w)
  ∧ (elements w l = [] → call_getter me r args w = (Ok None, w))
  ∧ loads (snd (call_getter me r args w)) = loads w
  ∧ (∀ w0 r0 acts,
       reachable me w0 →
       o_props (get_owner w0 r0) !! storeName me = None →
       Forall (leaves_alone r0 (length (w_heap w0))) acts →
       let w1 := run_all me acts (snd (getStore me r0 w0)) in
       call_getter me r0 args w1 = (Ok None, w1)).
Proof.
  intros Hn Hw Hb. apply bound_store_Some in Hb.
  pose proof (reachable_inv me w Hn Hw) as I.
  destruct (inv_slot _ _ I r _ Hb) as (l' & [= <-] & _ & Hg & _).
  pose proof (call_getter_installed me r args w l Hg) as Hc.
  split; [exact Hc|]. split; [intros He; by rewrite Hc, He|].
  split; [by rewrite call_getter_world|].
  intros w0 r0 acts Hw0 Hu Ha. cbv zeta.
  pose proof (reachable_inv me w0 Hn Hw0) as I0.
  rewrite (applyStore_unbound me r0 w0 Hn Hu). cbn [snd].
  pose proof (inv_created me r0 w0 Hn Hu I0) as I1.
  destruct (created_slots me r0 w0 Hn) as (Hs1 & _).
  pose proof (run_all_slot me acts _ _ _ Hn Hs1) as Hs2.
  pose proof (inv_run_all me acts _ Hn I1) as I2.
  destruct (inv_slot _ _ I2 r0 _ Hs2) as (l2 & [= <-] & _ & Hg2 & _).
  rewrite (call_getter_installed me r0 args _ _ Hg2).
  unfold elements.
  rewrite (run_all_store_alone me acts _ r0 _ Hn I1 Hs1 Ha).
  unfold created. cbn [w_heap].
  rewrite lookup_app_r, Nat.sub_diag by lia. reflexivity.
Qed.

Lemma C7_getter_first_element_witness :
  let w := run person_address (AStore 1) john_world in
  names_ok person_address ∧ reachable person_address w
  ∧ bound_store person_address w 1 = Some 0
  ∧ call_getter person_address 1 CallNone w = (Ok None, w).
Proof.
  cbv zeta.
  assert (Hw : reachable person_address
                 (run person_address (AStore 1) john_world))
    by apply reach_run, reach_fresh.
  assert (Hb : bound_store person_address
                 (run person_address (AStore 1) john_world) 1 = Some 0)
    by (vm_compute; reflexivity).
  pose proof (C7_getter_first_element person_address 1 0 CallNone _
                person_address_names_ok Hw Hb) as (_ & He & _).
  exact (conj person_address_names_ok (conj Hw (conj Hb (He eq_refl)))).
Defined.

(** ** The store function *)

(** C3: the store function is idempotent per record.  Its first call for
    a record creates the Bound Collection (a new store at the end of the
    heap), installs the getter and the setter and starts exactly one load
    of it; after any further activity, every later call for the record
    returns the same store, leaves the world as it is, and the store still
    has had exactly one load. *)
Theorem C3_factory_idempotent (me : HasOne) (r : rid) (w : world)
    (acts : list action) :
  names_ok me → reachable me w →
  o_props (get_owner w r) !! storeName me = None →
  let l := length (w_heap w) in
  let w1 := snd (getStore me r w) in
  let w2 := run_all me acts w1 in
  fst (getStore me r w) = Ok (Some (PStore l))
  ∧ w_heap w1 = (w_heap w ++ [new_store me])%list
  ∧ o_props (get_owner w1 r) !! getterName me = Some (PGetter l)
  ∧ o_props (get_owner w1 r) !! setterName me = Some (PSetter l)
  ∧ loads w1
    = (loads w ++ [(l, Ext_apply (storeConfig me) (associatedModel me))])%list
  ∧ load_count l w = 0
  ∧ load_count l w1 = 1
  ∧ getStore me r w2 = (Ok (Some (PStore l)), w2)
  ∧ length (w_heap (snd (getStore me r w2))) = length (w_heap w2)
  ∧ load_count l (snd (getStore me r w2)) = 1.
Proof.
  intros Hn Hw Hu. cbv zeta.
  pose proof (reachable_inv me w Hn Hw) as I.
  rewrite (applyStore_unbound me r w Hn Hu). cbn [fst snd].
  pose proof (inv_created me r w Hn Hu I) as I1.
  destruct (created_slots me r w Hn) as (Hs1 & Hg1 & Hse1).
  pose proof (run_all_slot me acts _ _ _ Hn Hs1) as Hs2.
  pose proof (inv_run_all me acts _ Hn I1) as I2.
  destruct (inv_slot _ _ I2 r _ Hs2) as (l2 & [= <-] & Hl2 & _).
  rewrite (applyStore_bound me r _ _ Hs2). cbn [snd].
  rewrite !(inv_load_count me) by done.
  repeat split; try done.
  - unfold loads, created. cbn [w_log]. by rewrite omap_app.
  - by rewrite decide_False by lia.
  - rewrite decide_True; [done|]. unfold created. cbn [w_heap].
    rewrite length_app. simpl. lia.
  - by rewrite decide_True.
Qed.

Lemma C3_factory_idempotent_witness :
  let acts := [AGet 1 CallNone; AComplete 0 Failed; AStore 1] in
  let w2 := run_all person_address acts
              (snd (getStore person_address 1 john_world)) in
  names_ok person_address ∧ reachable person_address john_world
  ∧ o_props (get_owner john_world 1) !! storeName person_address = None
  ∧ getStore person_address 1 w2 = (Ok (Some (PStore 0)), w2)
  ∧ load_count 0 (snd (getStore person_address 1 w2)) = 1.
Proof.
  cbv zeta.
  assert (Hw : reachable person_address john_world) by apply reach_fresh.
  assert (Hu : o_props (get_owner john_world 1) !! storeName person_address
               = None) by reflexivity.
  pose proof (C3_factory_idempotent person_address 1 john_world
                [AGet 1 CallNone; AComplete 0 Failed; AStore 1]
                person_address_names_ok Hw Hu)
    as (_ & _ & _ & _ & _ & _ & _ & Ha & _ & Hc).
  exact (conj person_address_names_ok (conj Hw (conj Hu (conj Ha Hc)))).
Defined.

(** ** One collection per record *)

(** C5: two distinct owner records get their own Bound Collections: the
    store function gives each its own store, kept in that record's slot;
    in no reachable world do two records hold the same store; and the
    setter of one record leaves the other record's store, and so its
    elements, as they were. *)
Theorem C5_independent_collections (me : HasOne) (r1 r2 : rid) (w : world)
    (v : setter_arg) (arg2 : call_arg) :
  names_ok me → reachable me w → r1 ≠ r2 →
  let w1 := snd (getStore me r1 w) in
  let w2 := snd (getStore me r2 w1) in
  (∃ l1 l2,
     fst (getStore me r1 w) = Ok (Some (PStore l1))
     ∧ fst (getStore me r2 w1) = Ok (Some (PStore l2))
     ∧ bound_store me w2 r1 = Some l1
     ∧ bound_store me w2 r2 = Some l2
     ∧ l1 ≠ l2)
  ∧ (∀ l1 l2,
       bound_store me w r1 = Some l1 → bound_store me w r2 = Some l2 →
       let w' := snd (call_setter me r1 v arg2 w) in
       l1 ≠ l2
       ∧ w_heap w' !! l2 = w_heap w !! l2
       ∧ elements w' l2 = elements w l2
       ∧ bound_store me w' r2 = Some l2).
Proof.
  intros Hn Hw Hr. cbv zeta.
  pose proof (reachable_inv me w Hn Hw) as I. split.
  - destruct (applyStore_returns me r1 w Hn I) as (l1 & Hf1 & Hs1).
    pose proof (inv_applyStore me r1 w Hn I) as I1.
    destruct (applyStore_returns me r2 _ Hn I1) as (l2 & Hf2 & Hs2).
    pose proof (inv_applyStore me r2 _ Hn I1) as I2.
    pose proof (run_slot me (AStore r2) _ _ _ Hn Hs1) as Hs1'.
    cbn [run] in Hs1'.
    exists l1, l2. rewrite !bound_store_Some. repeat split; try done.
    intros ->. by apply Hr, (inv_inj _ _ I2 r1 r2 l2).
  - intros l1 l2 H1 H2. apply bound_store_Some in H1, H2.
    assert (Hne : l1 ≠ l2).
    { intros ->. by apply Hr, (inv_inj _ _ I r1 r2 l2). }
    pose proof (run_store_alone me (ASet r1 v arg2) w r2 l2 Hn I H2 Hr) as Hh.
    cbn [run] in Hh. repeat split; try done.
    + unfold elements. by rewrite Hh.
    + apply bound_store_Some.
      apply (run_slot me (ASet r1 v arg2) w r2 _ Hn H2).
Qed.

Lemma C5_independent_collections_witness :
  let w := run_all person_address [AStore 1; AStore 2] john_world in
  let w' := snd (call_setter person_address 1 (ArgKey (SNum 10)) CallNone w) in
  names_ok person_address ∧ reachable person_address w ∧ 1 ≠ 2
  ∧ bound_store person_address w 1 = Some 0
  ∧ bound_store person_address w 2 = Some 1
  ∧ elements w' 1 = elements w 1.
Proof.
  cbv zeta.
  assert (Hw : reachable person_address
                 (run_all person_address [AStore 1; AStore 2] john_world))
    by apply reach_run, reach_run, reach_fresh.
  assert (Hr : 1 ≠ 2) by lia.
  assert (H1 : bound_store person_address
                 (run_all person_address [AStore 1; AStore 2] john_world) 1
               = Some 0) by (vm_compute; reflexivity).
  assert (H2 : bound_store person_address
                 (run_all person_address [AStore 1; AStore 2] john_world) 2
               = Some 1) by (vm_compute; reflexivity).
  pose proof (C5_independent_collections person_address 1 2 _
                (ArgKey (SNum 10)) CallNone
                person_address_names_ok Hw Hr) as (_ & Hsep).
  destruct (Hsep 0 1 H1 H2) as (_ & _ & He & _).
  exact (conj person_address_names_ok
           (conj Hw (conj Hr (conj H1 (conj H2 He))))).
Defined.

(** ** The setter *)

(** C2: for a record with its Bound Collection, the setter, given a raw
    key or an instance, first removes everything the collection holds and
    then adds the one element derived from the value (the instance itself,
    or the record built from the key); afterwards the getter returns that
    element and the collection holds exactly one element; a getter call
    between two setter calls sees one element, and after the second setter
    call the collection again holds one. *)
Theorem C2_setter_replaces (me : HasOne) (r : rid) (l : loc) (w : world)
    (vA vB : setter_arg) (arg2 args : call_arg) :
  names_ok me → reachable me w → bound_store me w r = Some l →
  let elem := ExtStore.element_of (Ext_apply (storeConfig me) (associatedModel me)) in
  let w1 := snd (call_setter me r vA arg2 w) in
  let w2 := snd (call_setter me r vB arg2 (snd (call_getter me r args w1))) in
  call_setter me r vA arg2 w = ExtStore.add l vA (snd (ExtStore.removeAll l w))
  ∧ elements (snd (ExtStore.removeAll l w)) l = []
  ∧ fst (call_setter me r vA arg2 w) = Ok tt
  ∧ elements w1 l = [elem vA]
  ∧ call_getter me r args w1 = (Ok (Some (elem vA)), w1)
  ∧ length (elements w1 l) = 1
  ∧ elements w2 l = [elem vB]
  ∧ (∀ i, elem (ArgRecord i) = i)
  ∧ (∀ k, elem (ArgKey k)
          = {| inst_model := associatedModel me; inst_data := RScalar k |}).
Proof.
  intros Hn Hw Hb. cbv zeta. apply bound_store_Some in Hb.
  pose proof (reachable_inv me w Hn Hw) as I.
  destruct (call_setter_bound me r l vA arg2 w Hn I Hb) as (Hc & Hok & He).
  pose proof (inv_call_setter me r vA arg2 w I) as I1.
  pose proof (run_slot me (ASet r vA arg2) w r _ Hn Hb) as Hb1.
  cbn [run] in Hb1.
  destruct (inv_slot _ _ I1 r _ Hb1) as (l' & [= <-] & _ & Hg1 & _).
  rewrite call_getter_world.
  destruct (call_setter_bound me r l vB arg2 _ Hn I1 Hb1) as (_ & _ & He2).
  destruct (inv_slot _ _ I r _ Hb) as (l' & [= <-] & Hl & _).
  destruct (lookup_lt_is_Some_2 _ _ Hl) as [s Es].
  repeat split; try done.
  - rewrite Hc. unfold setter, bind.
    by rewrite (removeAll_eq _ _ _ Es).
  - rewrite (removeAll_eq _ _ _ Es). unfold elements. cbn [snd w_heap].
    by rewrite list_lookup_insert_eq.
  - by rewrite (call_getter_installed me r args _ _ Hg1), He.
  - by rewrite He.
Qed.

Lemma C2_setter_replaces_witness :
  let w := run person_address (AStore 1) john_world in
  let w1 := snd (call_setter person_address 1 (ArgKey (SNum 10)) CallNone w) in
  names_ok person_address ∧ reachable person_address w
  ∧ bound_store person_address w 1 = Some 0
  ∧ call_getter person_address 1 CallNone w1
    = (Ok (Some {| inst_model := "Address"; inst_data := RScalar (SNum 10) |}),
       w1).
Proof.
  cbv zeta.
  assert (Hw : reachable person_address
                 (run person_address (AStore 1) john_world))
    by apply reach_run, reach_fresh.
  assert (Hb : bound_store person_address
                 (run person_address (AStore 1) john_world) 1 = Some 0)
    by (vm_compute; reflexivity).
  pose proof (C2_setter_replaces person_address 1 0 _
                (ArgKey (SNum 10)) (ArgRecord (address 5 "Main St"))
                CallNone CallNone person_address_names_ok Hw Hb)
    as (_ & _ & _ & _ & Hg & _).
  exact (conj person_address_names_ok (conj Hw (conj Hb Hg))).
Defined.

(** ** The load *)

(** C4: the Bound Collection is created from the store configuration with
    the model bound to the associated model and nothing else: its filters
    and other options are those of the configuration, none comes from the
    owner record, and the request of the load is that config whatever the
    owner's foreign key is.  So the load is unconstrained: the collection
    ends up with all the records the data source answers, possibly more
    than one, and the getter returns the first of them. *)
Theorem C4_unconstrained_load (me : HasOne) (r : rid) (w : world)
    (table : list instance) (args : call_arg) (k : scalar) :
  names_ok me → reachable me w →
  o_props (get_owner w r) !! storeName me = None →
  let l := length (w_heap w) in
  let config := {| sc_model := associatedModel me;
                   sc_filters := so_filters (storeConfig me);
                   sc_other := so_other (storeConfig me) |} in
  let w1 := snd (getStore me r w) in
  let records := answer (serve table config) in
  let w2 := snd (ExtStore.complete l (serve table config) w1) in
  w_heap w1 !! l = Some {| st_config := config; st_data := [];
                           st_pending := [None]; st_loaded := false |}
  ∧ loads w1 = (loads w ++ [(l, config)])%list
  ∧ loads (snd (getStore me r (set_field w r (foreignKey me) k)))
    = (loads w ++ [(l, config)])%list
  ∧ elements w2 l = records
  ∧ call_getter me r args w2 = (Ok (head records), w2)
  ∧ (so_filters (storeConfig me) = [] →
     Forall (λ a, inst_model a = associatedModel me) table →
     records = table ∧ length (elements w2 l) = length table).
Proof.
  intros Hn Hw Hu. cbv zeta.
  change {| sc_model := associatedModel me;
            sc_filters := so_filters (storeConfig me);
            sc_other := so_other (storeConfig me) |}
    with (Ext_apply (storeConfig me) (associatedModel me)).
  pose proof (reachable_inv me w Hn Hw) as I.
  assert (Hu' : o_props (get_owner (set_field w r (foreignKey me) k) r)
                !! storeName me = None) by (by rewrite set_field_props).
  rewrite (applyStore_unbound me r w Hn Hu).
  rewrite (applyStore_unbound me r _ Hn Hu'). cbn [snd].
  pose proof (inv_created me r w Hn Hu I) as I1.
  destruct (created_slots me r w Hn) as (Hs1 & Hg1 & _).
  assert (Hh : w_heap (created me r w) !! length (w_heap w)
               = Some (new_store me)).
  { unfold created. cbn [w_heap].
    by rewrite lookup_app_r, Nat.sub_diag by lia. }
  rewrite (complete_quiet _ _ [] _ _ Hh eq_refl). cbn [snd].
  assert (He : elements
      {| w_records := w_records (created me r w);
         w_heap := <[length (w_heap w) :=
                       settled (new_store me)
                         (serve table (Ext_apply (storeConfig me)
                                         (associatedModel me))) []]>
                     (w_heap (created me r w));
         w_log := w_log (created me r w) |} (length (w_heap w))
    = answer (serve table (Ext_apply (storeConfig me) (associatedModel me)))).
  { unfold elements. cbn [w_heap].
    rewrite list_lookup_insert_eq by (by eapply lookup_lt_Some).
    reflexivity. }
  split; [exact Hh|]. split.
  { unfold loads, created. cbn [w_log]. by rewrite omap_app. }
  split.
  { unfold loads, created, set_field. cbn [w_log w_heap]. by rewrite omap_app. }
  split; [exact He|]. split.
  { match goal with
    | |- call_getter _ _ _ ?w2 = _ =>
        rewrite (call_getter_installed me r args w2 (length (w_heap w)) Hg1)
    end.
    do 3 f_equal. exact He. }
  intros Hf Hm.
  assert (Ht : answer (serve table (Ext_apply (storeConfig me)
                                      (associatedModel me))) = table).
  { by rewrite serve_all. }
  split; [exact Ht|]. f_equal. exact (eq_trans He Ht).
Qed.

Lemma C4_unconstrained_load_witness :
  let table := [address 7 "Elm St"; address 20 "Main St"] in
  let w2 := run_all person_address
              [AStore 1; AComplete 0 (Loaded table)] john_world in
  names_ok person_address ∧ reachable person_address john_world
  ∧ o_props (get_owner john_world 1) !! storeName person_address = None
  ∧ field john_world 1 "address_id" = Some (SNum 20)
  ∧ length (elements w2 0) = 2
  ∧ call_getter person_address 1 CallNone w2
    = (Ok (Some (address 7 "Elm St")), w2).
Proof.
  cbv zeta.
  assert (Hw : reachable person_address john_world) by apply reach_fresh.
  assert (Hu : o_props (get_owner john_world 1) !! storeName person_address
               = None) by reflexivity.
  assert (Hk : field john_world 1 "address_id" = Some (SNum 20))
    by reflexivity.
  pose proof (C4_unconstrained_load person_address 1 john_world
                [address 7 "Elm St"; address 20 "Main St"] CallNone (SNum 30)
                person_address_names_ok Hw Hu)
    as (_ & _ & _ & _ & Hg & Hall).
  destruct (Hall eq_refl) as (_ & Hlen).
  { repeat constructor. }
  exact (conj person_address_names_ok
           (conj Hw (conj Hu (conj Hk (conj Hlen Hg))))).
Defined.

(** ** The getter and its argument *)

(** C1, as stated, fails.  For John (address_id = 20) the getter is not
    there before the relation was accessed, so the call raises a TypeError
    and starts no load; and once the store function has run, the call
    still starts no load: the only load is the one of the store function. *)
Lemma C1_getter_callback_counterexample :
  ¬ getter_loads_by_key person_address john_world 1 7
  ∧ ¬ getter_loads_by_key person_address
        (run person_address (AStore 1) john_world) 1 7.
Proof.
  split.
  - intros (key & x & w' & _ & Hc & _). vm_compute in Hc. discriminate Hc.
  - intros (key & x & w' & _ & Hc & l & q & Hl & _).
    assert (Hw : w' = run person_address (AStore 1) john_world).
    { rewrite <- (call_getter_world person_address 1 (CallFunction 7)
                    (run person_address (AStore 1) john_world)).
      by rewrite Hc. }
    subst w'. apply (f_equal length) in Hl.
    rewrite length_app in Hl. cbn [length] in Hl. lia.
Qed.

(** C1, amended: for a record whose relation was not accessed, the first
    call of the store function starts exactly one load of the associated
    model, whose request is the store's config and does not depend on the
    record; the getter it installs, called with a callback, starts no
    load, changes nothing and never calls the callback: it returns nothing
    while the load is in flight and, once the load has completed, the
    first record the data source answered. *)
Theorem C1_getter_ignores_callback (me : HasOne) (r : rid) (w : world)
    (cb : fn) (records : list instance) :
  names_ok me → reachable me w →
  o_props (get_owner w r) !! storeName me = None →
  let l := length (w_heap w) in
  let w1 := snd (getStore me r w) in
  let w2 := snd (ExtStore.complete l (Loaded records) w1) in
  loads w1
    = (loads w ++ [(l, Ext_apply (storeConfig me) (associatedModel me))])%list
  ∧ sc_model (Ext_apply (storeConfig me) (associatedModel me))
    = associatedModel me
  ∧ sc_filters (Ext_apply (storeConfig me) (associatedModel me))
    = so_filters (storeConfig me)
  ∧ call_getter me r (CallFunction cb) w1 = (Ok None, w1)
  ∧ call_getter me r (CallFunction cb) w2 = (Ok (head records), w2)
  ∧ loads w2 = loads w1
  ∧ calls w2 = [].
Proof.
  intros Hn Hw Hu. cbv zeta.
  pose proof (reachable_inv me w Hn Hw) as I.
  assert (Hw1 : reachable me (snd (getStore me r w)))
    by apply (reach_run me (AStore r) w Hw).
  assert (Hw2 : reachable me (snd (ExtStore.complete (length (w_heap w))
                                     (Loaded records) (snd (getStore me r w)))))
    by apply (reach_run me (AComplete _ _) _ Hw1).
  pose proof (reachable_inv me _ Hn Hw2) as I2.
  destruct (inv_calls me _ I2) as [Hcalls _].
  revert Hw2 I2 Hcalls.
  rewrite (applyStore_unbound me r w Hn Hu). cbn [snd].
  intros Hw2 I2 Hcalls.
  destruct (created_slots me r w Hn) as (Hs1 & Hg1 & _).
  assert (Hh : w_heap (created me r w) !! length (w_heap w)
               = Some (new_store me)).
  { unfold created. cbn [w_heap].
    by rewrite lookup_app_r, Nat.sub_diag by lia. }
  revert Hw2 I2 Hcalls.
  rewrite (complete_quiet _ _ [] _ _ Hh eq_refl). cbn [snd].
  intros Hw2 I2 Hcalls.
  split. { unfold loads, created. cbn [w_log]. by rewrite omap_app. }
  split; [done|]. split; [done|]. split.
  { rewrite (call_getter_installed me r _ _ _ Hg1). unfold elements.
    by rewrite Hh. }
  split.
  { match goal with
    | |- call_getter _ _ _ ?w2 = _ =>
        rewrite (call_getter_installed me r (CallFunction cb) w2
                   (length (w_heap w)) Hg1)
    end.
    unfold elements. cbn [w_heap].
    rewrite list_lookup_insert_eq by (by eapply lookup_lt_Some).
    reflexivity. }
  split; [reflexivity | exact Hcalls].
Qed.

Lemma C1_getter_ignores_callback_witness :
  let w1 := snd (getStore person_address 1 john_world) in
  names_ok person_address ∧ reachable person_address john_world
  ∧ o_props (get_owner john_world 1) !! storeName person_address = None
  ∧ call_getter person_address 1 (CallFunction 7) w1 = (Ok None, w1).
Proof.
  cbv zeta.
  assert (Hw : reachable person_address john_world) by apply reach_fresh.
  assert (Hu : o_props (get_owner john_world 1) !! storeName person_address
               = None) by reflexivity.
  pose proof (C1_getter_ignores_callback person_address 1 john_world 7
                [address 20 "Main St"] person_address_names_ok Hw Hu)
    as (_ & _ & _ & Hg & _).
  exact (conj person_address_names_ok (conj Hw (conj Hu Hg))).
Defined.

(** ** A load that fails *)

(** C6, as stated, fails.  John's store is loading; the getter is called
    with failure and callback functions, the load fails, and neither
    function has been called.  The same holds when the getter is called
    after the failure. *)
Lemma C6_failure_reported_counterexample :
  let o := {| reload := true; callback := Some 7; success := None;
              failure := Some 8; scope := None |} in
  ¬ failure_reported person_address
      (run person_address (AStore 1) john_world) 1 0 o
  ∧ ¬ failure_reported person_address
        (run_all person_address [AStore 1; AComplete 0 Failed] john_world)
        1 0 o.
Proof.
  cbv zeta. split; intros [Hf _]; specialize (Hf 8 eq_refl);
    vm_compute in Hf; by apply elem_of_nil in Hf.
Qed.

(** C6, amended: a load that fails at the data source is never thrown and
    leaves the Bound Collection as it was: the same elements, and not
    loaded if it was not loaded.  It is not reported through what the
    getter is given: the getter ignores the options (reload, callback,
    success, failure, scope), calls no function, starts no reload and
    returns the first element the collection holds, if any. *)
Theorem C6_failed_load_not_reported (me : HasOne) (r : rid) (l : loc)
    (o : load_options) (w : world) :
  names_ok me → reachable me w → bound_store me w r = Some l →
  let w1 := snd (ExtStore.complete l Failed w) in
  fst (ExtStore.complete l Failed w) = Ok tt
  ∧ elements w1 l = elements w l
  ∧ loaded w1 l = loaded w l
  ∧ calls w1 = []
  ∧ call_getter me r (CallOptions o) w1 = (Ok (head (elements w l)), w1)
  ∧ call_getter me r (CallOptions o) w1 = call_getter me r CallNone w1
  ∧ loads (snd (call_getter me r (CallOptions o) w1)) = loads w
  ∧ calls (snd (call_getter me r (CallOptions o) w1)) = [].
Proof.
  intros Hn Hw Hb. cbv zeta. apply bound_store_Some in Hb.
  pose proof (reachable_inv me w Hn Hw) as I.
  pose proof (inv_complete me l Failed w I) as I1.
  destruct (inv_calls me _ I1) as [Hcalls _].
  pose proof (run_slot me (AComplete l Failed) w r _ Hn Hb) as Hb1.
  cbn [run] in Hb1.
  destruct (inv_slot _ _ I1 r _ Hb1) as (l' & [= <-] & _ & Hg1 & _).
  rewrite call_getter_world.
  rewrite !(call_getter_installed me r _ _ _ Hg1).
  assert (Hc : fst (ExtStore.complete l Failed w) = Ok tt
               ∧ elements (snd (ExtStore.complete l Failed w)) l = elements w l
               ∧ loaded (snd (ExtStore.complete l Failed w)) l = loaded w l
               ∧ loads (snd (ExtStore.complete l Failed w)) = loads w).
  { destruct (w_heap w !! l) as [s|] eqn:E.
    2:{ rewrite complete_idle; [done|]. intros s. by rewrite E. }
    destruct (st_pending s) as [|opt rest] eqn:Ep.
    { rewrite complete_idle; [done|]. intros s'. rewrite E. by intros [= <-]. }
    assert (opt = None) as ->.
    { apply (inv_heap _ _ I l s E). rewrite Ep. left. }
    rewrite (complete_quiet _ _ _ _ _ E Ep). cbn [fst snd].
    unfold elements, loaded, loads. cbn [w_heap w_log].
    rewrite list_lookup_insert_eq by (by eapply lookup_lt_Some).
    by rewrite E. }
  destruct Hc as (Hok & He & Hl & Hlo).
  rewrite He. repeat split; done.
Qed.

Lemma C6_failed_load_not_reported_witness :
  let o := {| reload := true; callback := Some 7; success := None;
              failure := Some 8; scope := None |} in
  let w := run person_address (AStore 1) john_world in
  let w1 := snd (ExtStore.complete 0 Failed w) in
  names_ok person_address ∧ reachable person_address w
  ∧ bound_store person_address w 1 = Some 0
  ∧ loaded w1 0 = false
  ∧ call_getter person_address 1 (CallOptions o) w1 = (Ok None, w1)
  ∧ calls (snd (call_getter person_address 1 (CallOptions o) w1)) = [].
Proof.
  cbv zeta.
  assert (Hw : reachable person_address
                 (run person_address (AStore 1) john_world))
    by apply reach_run, reach_fresh.
  assert (Hb : bound_store person_address
                 (run person_address (AStore 1) john_world) 1 = Some 0)
    by (vm_compute; reflexivity).
  pose proof (C6_failed_load_not_reported person_address 1 0
                {| reload := true; callback := Some 7; success := None;
                   failure := Some 8; scope := None |} _
                person_address_names_ok Hw Hb)
    as (_ & _ & Hl & _ & Hg & _ & _ & Hc).
  exact (conj person_address_names_ok
           (conj Hw (conj Hb (conj Hl (conj Hg Hc))))).
Defined.

(** ** Key names *)

(** C8, as stated, fails.  With primaryKey 'unique_id' and foreignKey
    'addr_id', an owner with addr_id = 20 and a data source holding the
    addresses 7 and 20, the relation resolves to address 7: the request
    carries no filter, and the getter returns the first record answered. *)
Lemma C8_explicit_keys_counterexample :
  ¬ resolves_through_keys person_custom
      [custom_address 7 "Elm St"; custom_address 20 "Main St"]
      custom_world 1.
Proof.
  intros H.
  destruct (H (SNum 20) eq_refl
              {| sc_model := "Address"; sc_filters := []; sc_other := [] |}
              eq_refl) as (a & Ha & Hk).
  vm_compute in Ha. injection Ha as <-.
  vm_compute in Hk. discriminate Hk.
Qed.

(** C8, amended: explicit primaryKey and foreignKey names are kept in the
    relation's definition, and nothing the relation does reads them: the
    name derivation, the names of the installed functions, the store
    function, the getter and the setter are the same for every choice of
    the two names, so the explicit names change no lookup. *)
Theorem C8_keys_not_consulted (me : HasOne) (pk fk : string) (r : rid)
    (w : world) (v : setter_arg) (arg2 args : call_arg) :
  let me' := with_keys me pk fk in
  primaryKey me' = pk
  ∧ foreignKey me' = fk
  ∧ getName me' = getName me
  ∧ getterName me' = getterName me
  ∧ setterName me' = setterName me
  ∧ getStore me' r w = getStore me r w
  ∧ call_getter me' r args w = call_getter me r args w
  ∧ call_setter me' r v arg2 w = call_setter me r v arg2 w.
Proof. cbv zeta. repeat split. Qed.

(** * Further properties of the store function, the getter and the setter *)

Section Further.

Context (me : HasOne).

(** The creating branch when the store's name collides. *)
Lemma applyStore_collided r w :
  ¬ names_ok me →
  o_props (get_owner w r) !! storeName me = None →
  getStore me r w = (Throw TypeError, collided me r w).
Proof.
  intros Hn H.
  assert (Hl : ∀ o : gmap string prop, ∃ l,
    (<[setterName me := PSetter (length (w_heap w))]>
       (<[getterName me := PGetter (length (w_heap w))]>
          (<[storeName me := PStore (length (w_heap w))]> o)) !! storeName me
     = Some (PGetter l)) ∨
    (<[setterName me := PSetter (length (w_heap w))]>
       (<[getterName me := PGetter (length (w_heap w))]>
          (<[storeName me := PStore (length (w_heap w))]> o)) !! storeName me
     = Some (PSetter l))).
  { intros o. exists (length (w_heap w)).
    destruct (decide (storeName me = setterName me)) as [Es|Es].
    - right. rewrite <- Es. apply lookup_insert_eq.
    - destruct (decide (storeName me = getterName me)) as [Eg|Eg].
      + left. rewrite lookup_insert_ne by (apply not_eq_sym, Es).
        rewrite <- Eg. apply lookup_insert_eq.
      + destruct Hn. by split. }
  unfold getStore, applyStore, bind, get_prop. rewrite !H.
  unfold ExtStore.create, set_prop, collided, created, get_owner in *.
  cbn [w_records w_heap w_log].
  rewrite !lookup_insert_eq. cbn [default from_option id o_props o_data].
  rewrite !insert_insert_eq.
  match goal with
  | |- context [call_load ?p] =>
      assert (Hp : ∃ l, p = Some (PGetter l) ∨ p = Some (PSetter l))
        by apply Hl;
      destruct Hp as (l & [Hp | Hp]); rewrite Hp
  end; reflexivity.
Qed.

(** The store function, in each of its three cases. *)
Lemma getStore_cases r w :
  (∃ p, o_props (get_owner w r) !! storeName me = Some p
        ∧ getStore me r w = (Ok (Some p), w))
  ∨ (o_props (get_owner w r) !! storeName me = None ∧ names_ok me
     ∧ getStore me r w
       = (Ok (Some (PStore (length (w_heap w)))), created me r w))
  ∨ (o_props (get_owner w r) !! storeName me = None ∧ ¬ names_ok me
     ∧ getStore me r w = (Throw TypeError, collided me r w)).
Proof.
  destruct (o_props (get_owner w r) !! storeName me) as [p|] eqn:E.
  - left. exists p. split; [done|]. by apply applyStore_bound.
  - right.
    destruct (decide (storeName me = getterName me)) as [Eg|Eg].
    { right. split; [done|]. assert (¬ names_ok me) by (by intros [? _]).
      split; [done|]. by apply applyStore_collided. }
    destruct (decide (storeName me = setterName me)) as [Es|Es].
    { right. split; [done|]. assert (¬ names_ok me) by (by intros [_ ?]).
      split; [done|]. by apply applyStore_collided. }
    left. split; [done|]. assert (names_ok me) by (by split).
    split; [done|]. by apply applyStore_unbound.
Qed.

End Further.

(** X1: when the store's name is also the name of the getter or of the
    setter, the first call of the store function for a record raises a
    TypeError: the store was created and is in the heap, but its slot was
    overwritten by the closure, so no load of it was started and nothing
    is logged; from then on the store function returns that closure, not
    a store, without an error. *)
Theorem store_name_collision (me : HasOne) (r : rid) (w : world) :
  storeName me = getterName me ∨ storeName me = setterName me →
  o_props (get_owner w r) !! storeName me = None →
  let w1 := snd (getStore me r w) in
  fst (getStore me r w) = Throw TypeError
  ∧ w_heap w1 !! length (w_heap w)
    = Some {| st_config := Ext_apply (storeConfig me) (associatedModel me);
              st_data := []; st_pending := []; st_loaded := false |}
  ∧ length (w_heap w1) = S (length (w_heap w))
  ∧ w_log w1 = w_log w
  ∧ bound_store me w1 r = None
  ∧ ∃ p, getStore me r w1 = (Ok (Some p), w1) ∧ ∀ l, p ≠ PStore l.
Proof.
  intros Hc Hu. cbv zeta.
  assert (Hn : ¬ names_ok me) by (intros [? ?]; by destruct Hc).
  rewrite (applyStore_collided me r w Hn Hu). cbn [fst snd].
  assert (Hp : ∃ p, o_props (get_owner (collided me r w) r) !! storeName me
                    = Some p ∧ ∀ l, p ≠ PStore l).
  { assert (Ho : get_owner (collided me r w) r = get_owner (created me r w) r)
      by reflexivity.
    rewrite Ho, created_owner_same. cbn [o_props].
    destruct (decide (storeName me = setterName me)) as [Es|Es].
    - exists (PSetter (length (w_heap w))). rewrite <- Es.
      by rewrite lookup_insert_eq.
    - destruct Hc as [Eg|Es']; [|done].
      exists (PGetter (length (w_heap w))).
      rewrite lookup_insert_ne by (apply not_eq_sym, Es).
      rewrite <- Eg. by rewrite lookup_insert_eq. }
  destruct Hp as (p & Hp & Hns).
  repeat split.
  - unfold collided. cbn [w_heap].
    by rewrite lookup_app_r, Nat.sub_diag by lia.
  - unfold collided. cbn [w_heap]. rewrite length_app. simpl. lia.
  - unfold bound_store. rewrite Hp. destruct p; try done. by destruct (Hns l).
  - exists p. split; [|done]. by apply applyStore_bound.
Qed.

Lemma store_name_collision_witness :
  let w1 := snd (getStore person_colliding 1 john_world) in
  (storeName person_colliding = getterName person_colliding
   ∨ storeName person_colliding = setterName person_colliding)
  ∧ o_props (get_owner john_world 1) !! storeName person_colliding = None
  ∧ fst (getStore person_colliding 1 john_world) = Throw TypeError
  ∧ w_log w1 = [].
Proof.
  cbv zeta.
  assert (Hc : storeName person_colliding = getterName person_colliding
               ∨ storeName person_colliding = setterName person_colliding)
    by (left; reflexivity).
  assert (Hu : o_props (get_owner john_world 1) !! storeName person_colliding
               = None) by reflexivity.
  pose proof (store_name_collision person_colliding 1 john_world Hc Hu)
    as (Ht & _ & _ & Hl & _).
  exact (conj Hc (conj Hu (conj Ht Hl))).
Defined.

(** X2: the getter and the setter exist only once the store function has
    run for the record.  On a record whose store slot is still empty,
    calling either raises a TypeError and changes nothing. *)
Theorem accessors_absent_before_access (me : HasOne) (r : rid) (w : world)
    (v : setter_arg) (arg2 args : call_arg) :
  names_ok me → reachable me w →
  o_props (get_owner w r) !! storeName me = None →
  call_getter me r args w = (Throw TypeError, w)
  ∧ call_setter me r v arg2 w = (Throw TypeError, w).
Proof.
  intros Hn Hw Hu.
  destruct (inv_unbound _ _ (reachable_inv me w Hn Hw) r Hu) as [Hg Hs].
  unfold call_getter, call_setter, bind, get_prop. by rewrite Hg, Hs.
Qed.

Lemma accessors_absent_before_access_witness :
  let w := run person_address (AStore 2) john_world in
  names_ok person_address ∧ reachable person_address w
  ∧ o_props (get_owner w 1) !! storeName person_address = None
  ∧ call_getter person_address 1 CallNone w = (Throw TypeError, w)
  ∧ call_setter person_address 1 (ArgKey (SNum 10)) CallNone w
    = (Throw TypeError, w).
Proof.
  cbv zeta.
  assert (Hw : reachable person_address
                 (run person_address (AStore 2) john_world))
    by apply reach_run, reach_fresh.
  assert (Hu : o_props (get_owner (run person_address (AStore 2) john_world) 1)
               !! storeName person_address = None)
    by (vm_compute; reflexivity).
  pose proof (accessors_absent_before_access person_address 1 _
                (ArgKey (SNum 10)) CallNone CallNone
                person_address_names_ok Hw Hu) as (Hg & Hs).
  exact (conj person_address_names_ok (conj Hw (conj Hu (conj Hg Hs)))).
Defined.

(** X3: of two setter calls in a row on the same record only the second
    counts: the result and the world are those of the second call alone,
    in every world (also where the setter is not installed, and whatever
    second arguments are passed).  In particular setting the same value
    twice is setting it once. *)
Theorem setter_last_call_wins (me : HasOne) (r : rid) (w : world)
    (vA vB : setter_arg) (argA argB : call_arg) :
  call_setter me r vB argB (snd (call_setter me r vA argA w))
  = call_setter me r vB argB w.
Proof.
  unfold call_setter, bind, get_prop.
  destruct (o_props (get_owner w r) !! setterName me) as [[l|l|l]|] eqn:E;
    cbn [throw snd]; rewrite ?E; try reflexivity.
  destruct (w_heap w !! l) as [s|] eqn:Es.
  - rewrite (setter_eq l s vA argA w Es). cbn [snd].
    assert (Ho : ∀ h, get_owner {| w_records := w_records w; w_heap := h;
                                  w_log := w_log w |} r = get_owner w r)
      by reflexivity.
    rewrite Ho, E.
    erewrite setter_eq.
    2:{ cbn [w_heap]. apply list_lookup_insert_eq. by eapply lookup_lt_Some. }
    rewrite (setter_eq l s vB argB w Es).
    cbn [w_records w_heap w_log st_config st_pending st_loaded].
    by rewrite list_insert_insert_eq.
  - rewrite (setter_dangling l vA argA w Es). cbn [snd]. by rewrite E.
Qed.

(** X4: name derivation is stable: deriving a name from an already derived
    name gives that name again, whatever the configured name and the
    associated name are. *)
Theorem applyName_idempotent (me : HasOne) (name : option string) :
  applyName me (Some (applyName me name)) = applyName me name.
Proof.
  unfold applyName.
  destruct (falsy name) eqn:F.
  - unfold falsy. by case_decide.
  - destruct name as [s|]; [|done]. unfold falsy in *.
    cbn [default from_option id]. by case_decide.
Qed.

(** X5: what the store function leaves alone, in every world and for every
    association: the other records, the field data of the record itself
    (the foreign key included), every property of the record other than
    the store slot, the getter and the setter, and every store that
    already exists.  It adds at most one store at the end of the heap and
    at most one entry at the end of the log. *)
Theorem getStore_frame (me : HasOne) (r : rid) (w : world) :
  let w' := snd (getStore me r w) in
  (∀ r', r' ≠ r → get_owner w' r' = get_owner w r')
  ∧ o_data (get_owner w' r) = o_data (get_owner w r)
  ∧ (∀ k, k ≠ storeName me → k ≠ getterName me → k ≠ setterName me →
          o_props (get_owner w' r) !! k = o_props (get_owner w r) !! k)
  ∧ (∃ new, w_heap w' = (w_heap w ++ new)%list ∧ (length new ≤ 1)%nat)
  ∧ (∃ more, w_log w' = (w_log w ++ more)%list ∧ (length more ≤ 1)%nat).
Proof.
  cbv zeta.
  assert (Hcr : (∀ r', r' ≠ r → get_owner (created me r w) r' = get_owner w r')
    ∧ o_data (get_owner (created me r w) r) = o_data (get_owner w r)
    ∧ (∀ k, k ≠ storeName me → k ≠ getterName me → k ≠ setterName me →
         o_props (get_owner (created me r w) r) !! k
         = o_props (get_owner w r) !! k)).
  { split; [intros r' Hr; by apply created_owner_other|].
    rewrite created_owner_same. cbn [o_data o_props]. split; [done|].
    intros k H1 H2 H3. by rewrite !lookup_insert_ne by (by apply not_eq_sym). }
  destruct (getStore_cases me r w)
    as [(p & _ & ->) | [(_ & _ & ->) | (_ & _ & ->)]]; cbn [snd].
  - repeat split; try done;
      exists []; (split; [by rewrite app_nil_r | simpl; lia]).
  - destruct Hcr as (H1 & H2 & H3). repeat split; try done.
    + eexists [_]. split; [reflexivity | simpl; lia].
    + eexists [_]. split; [reflexivity | simpl; lia].
  - destruct Hcr as (H1 & H2 & H3). repeat split; try done.
    + eexists [_]. split; [reflexivity | simpl; lia].
    + exists []. split; [by rewrite app_nil_r | simpl; lia].
Qed.

(** X6: the relation does not follow the owner's fields.  After any field
    of any record is set (the foreign key of the owner, say), the getter
    returns what it returned before, and the store function returns the
    same result, leaves the same stores and logs the same loads as it
    would have without the change. *)
Theorem field_change_not_followed (me : HasOne) (r r' : rid) (f : string)
    (k : scalar) (args : call_arg) (w : world) :
  call_getter me r args (set_field w r' f k)
  = (fst (call_getter me r args w), set_field w r' f k)
  ∧ fst (getStore me r (set_field w r' f k)) = fst (getStore me r w)
  ∧ w_heap (snd (getStore me r (set_field w r' f k)))
    = w_heap (snd (getStore me r w))
  ∧ w_log (snd (getStore me r (set_field w r' f k)))
    = w_log (snd (getStore me r w)).
Proof.
  split.
  - unfold call_getter, bind, get_prop. rewrite set_field_props.
    by destruct (o_props (get_owner w r) !! getterName me) as [[]|].
  - pose proof (set_field_props w r' f k r) as Hp.
    destruct (getStore_cases me r w)
      as [(p & Hs & ->) | [(Hs & Hn & ->) | (Hs & Hn & ->)]];
      destruct (getStore_cases me r (set_field w r' f k))
        as [(p' & Hs' & ->) | [(Hs' & Hn' & ->) | (Hs' & Hn' & ->)]];
      rewrite Hp in Hs'; try congruence; try done.
    rewrite Hs in Hs'. by injection Hs' as ->.
Qed.

Section Invariants.

Context (me : HasOne).

Lemma complete_frame l o w :
  w_records (snd (ExtStore.complete l o w)) = w_records w
  ∧ length (w_heap (snd (ExtStore.complete l o w))) = length (w_heap w).
Proof.
  unfold ExtStore.complete.
  destruct (w_heap w !! l) as [s|]; [|done].
  destruct (st_pending s) as [|opt rest]; [done|].
  destruct o, (opt ≫= callback), (opt ≫= success), (opt ≫= failure);
    cbn; by rewrite length_insert.
Qed.

(** At most one load of a store is in flight. *)
Lemma reachable_pending w :
  names_ok me → reachable me w →
  ∀ l s, w_heap w !! l = Some s → (length (st_pending s) ≤ 1)%nat.
Proof.
  intros Hn Hw. induction Hw as [data|a w Hw IH]; intros l s Hs.
  { cbn [fresh_world w_heap] in Hs. by rewrite lookup_nil in Hs. }
  pose proof (reachable_inv me w Hn Hw) as I.
  destruct a as [r|r args|r v arg2|l' o]; cbn [run] in Hs.
  - destruct (getStore_cases me r w)
      as [(p & _ & E) | [(_ & _ & E) | (_ & Hc & _)]]; [| |done];
      rewrite E in Hs; cbn [snd] in Hs; [by eapply IH|].
    unfold created in Hs. cbn [w_heap] in Hs.
    apply lookup_app_Some in Hs as [Hs|[_ Hs]]; [by eapply IH|].
    apply list_lookup_singleton_Some in Hs as [_ <-]. simpl. lia.
  - rewrite call_getter_world in Hs. by eapply IH.
  - destruct (call_setter_heap me _ _ _ _ _ _ Hs) as (s0 & H0 & _ & -> & _).
    by eapply IH.
  - destruct (w_heap w !! l') as [s'|] eqn:E.
    2:{ rewrite complete_idle in Hs; [by eapply IH|]. intros ?. by rewrite E. }
    destruct (st_pending s') as [|opt rest] eqn:Ep.
    { rewrite complete_idle in Hs; [by eapply IH|].
      intros ?. rewrite E. by intros [= <-]. }
    assert (opt = None) as ->.
    { apply (inv_heap _ _ I l' s' E). rewrite Ep. left. }
    rewrite (complete_quiet _ _ _ _ _ E Ep) in Hs. cbn [snd w_heap] in Hs.
    pose proof (IH l' s' E) as Hle. rewrite Ep in Hle. cbn [length] in Hle.
    destruct (decide (l' = l)) as [->|Hne].
    + rewrite list_lookup_insert_eq in Hs by (by eapply lookup_lt_Some).
      injection Hs as <-. destruct o; cbn [settled st_pending]; lia.
    + rewrite list_lookup_insert_ne in Hs by done. by eapply IH.
Qed.

(** Every store of the heap is in the slot of some record. *)
Lemma reachable_owned w :
  names_ok me → reachable me w →
  ∀ l, l < length (w_heap w) →
       ∃ r, o_props (get_owner w r) !! storeName me = Some (PStore l).
Proof.
  intros Hn Hw. induction Hw as [data|a w Hw IH]; intros l Hl.
  { cbn in Hl. lia. }
  assert (Hsame : w_records (run me a w) = w_records w →
                  length (w_heap (run me a w)) = length (w_heap w) →
                  ∃ r, o_props (get_owner (run me a w) r) !! storeName me
                       = Some (PStore l)).
  { intros Hr Hlen. rewrite Hlen in Hl. destruct (IH l Hl) as [r Hs].
    exists r. unfold get_owner in *. by rewrite Hr. }
  destruct a as [r|r args|r v arg2|l' o]; cbn [run] in *.
  - destruct (getStore_cases me r w)
      as [(p & _ & E) | [(Hu & _ & E) | (_ & Hc & _)]]; [| |done];
      rewrite E in *; cbn [snd] in *; [by apply Hsame|].
    unfold created in Hl. cbn [w_heap] in Hl.
    rewrite length_app in Hl. cbn [length] in Hl.
    destruct (decide (l = length (w_heap w))) as [->|Hne].
    + exists r. apply (created_slots me r w Hn).
    + destruct (IH l) as [r0 Hs]; [lia|]. exists r0.
      rewrite created_owner_other; [done|]. intros ->. congruence.
  - rewrite call_getter_world in *. by apply Hsame.
  - destruct (call_setter_frame me r v arg2 w) as (Hr & _ & Hlen).
    by apply Hsame.
  - destruct (complete_frame l' o w) as (Hr & Hlen). by apply Hsame.
Qed.

End Invariants.

(** X7: in every world the association can be in, the log is exactly one
    load per store, in the order the stores were created, each with the
    association's config as its request; no function of a caller was ever
    called and no owner record was saved; and every store has the
    association's config and at most one load in flight, started without
    options.  So no second load of a store is ever started. *)
Theorem one_load_per_store (me : HasOne) (w : world) :
  names_ok me → reachable me w →
  loads w = (λ l, (l, Ext_apply (storeConfig me) (associatedModel me)))
              <$> seq 0 (length (w_heap w))
  ∧ length (loads w) = length (w_heap w)
  ∧ calls w = []
  ∧ saves w = []
  ∧ ∀ l s, w_heap w !! l = Some s →
      st_config s = Ext_apply (storeConfig me) (associatedModel me)
      ∧ (length (st_pending s) ≤ 1)%nat
      ∧ ∀ o, o ∈ st_pending s → o = None.
Proof.
  intros Hn Hw. pose proof (reachable_inv me w Hn Hw) as I.
  destruct (inv_calls me w I) as [Hc Hs].
  rewrite (inv_loads me w I). repeat split; try done.
  - by rewrite length_fmap, length_seq.
  - by apply (inv_heap _ _ I l s).
  - by apply (reachable_pending me w Hn Hw l s).
  - by apply (inv_heap _ _ I l s).
Qed.

Lemma one_load_per_store_witness :
  let w := run_all person_address
             [AStore 1; AGet 1 CallNone; AStore 2; AStore 1;
              ASet 1 (ArgKey (SNum 10)) (CallFunction 7)] john_world in
  names_ok person_address ∧ reachable person_address w
  ∧ length (w_heap w) = 2
  ∧ length (loads w) = length (w_heap w)
  ∧ calls w = [].
Proof.
  cbv zeta.
  assert (Hw : reachable person_address
                 (run_all person_address
                    [AStore 1; AGet 1 CallNone; AStore 2; AStore 1;
                     ASet 1 (ArgKey (SNum 10)) (CallFunction 7)] john_world))
    by (repeat apply reach_run; apply reach_fresh).
  assert (Hl : length (w_heap (run_all person_address
                    [AStore 1; AGet 1 CallNone; AStore 2; AStore 1;
                     ASet 1 (ArgKey (SNum 10)) (CallFunction 7)] john_world))
               = 2) by (vm_compute; reflexivity).
  pose proof (one_load_per_store person_address _
                person_address_names_ok Hw) as (_ & Hn & Hc & _).
  exact (conj person_address_names_ok (conj Hw (conj Hl (conj Hn Hc)))).
Defined.

(** X8: no store is left without an owner.  In every world the
    association can be in, each store of the heap is held in the store
    slot of exactly one record. *)
Theorem every_store_owned (me : HasOne) (w : world) (l : loc) :
  names_ok me → reachable me w → l < length (w_heap w) →
  ∃ r, bound_store me w r = Some l
       ∧ ∀ r', bound_store me w r' = Some l → r' = r.
Proof.
  intros Hn Hw Hl.
  destruct (reachable_owned me w Hn Hw l Hl) as [r Hr].
  exists r. split; [by apply bound_store_Some|].
  intros r' Hr'. apply bound_store_Some in Hr'.
  by apply (inv_inj _ _ (reachable_inv me w Hn Hw) r' r l).
Qed.

Lemma every_store_owned_witness :
  let w := run_all person_address [AStore 1; AStore 2] john_world in
  names_ok person_address ∧ reachable person_address w
  ∧ 1 < length (w_heap w)
  ∧ ∃ r, bound_store person_address w r = Some 1
         ∧ ∀ r', bound_store person_address w r' = Some 1 → r' = r.
Proof.
  cbv zeta.
  assert (Hw : reachable person_address
                 (run_all person_address [AStore 1; AStore 2] john_world))
    by apply reach_run, reach_run, reach_fresh.
  assert (Hl : 1 < length (w_heap (run_all person_address
                                     [AStore 1; AStore 2] john_world)))
    by (vm_compute; lia).
  exact (conj person_address_names_ok
           (conj Hw (conj Hl (every_store_owned person_address _ 1
                                person_address_names_ok Hw Hl)))).
Defined.

(** ** Two relations of one record *)

Ltac through_inserts :=
  repeat first [ rewrite lookup_insert_eq
               | rewrite lookup_insert_ne by done ].

Lemma created_twice_props (me1 me2 : HasOne) (r : rid) (w : world) :
  o_props (get_owner (created me2 r (created me1 r w)) r)
  = <[setterName me2 := PSetter (S (length (w_heap w)))]>
      (<[getterName me2 := PGetter (S (length (w_heap w)))]>
         (<[storeName me2 := PStore (S (length (w_heap w)))]>
            (<[setterName me1 := PSetter (length (w_heap w))]>
               (<[getterName me1 := PGetter (length (w_heap w))]>
                  (<[storeName me1 := PStore (length (w_heap w))]>
                     (o_props (get_owner w r))))))).
Proof.
  rewrite !created_owner_same. cbn [o_props].
  assert (Hl : length (w_heap (created me1 r w)) = S (length (w_heap w))).
  { unfold created. cbn [w_heap]. rewrite length_app. simpl. lia. }
  by rewrite Hl.
Qed.

Lemma created_twice_heap (me1 me2 : HasOne) (r : rid) (w : world) :
  w_heap (created me2 r (created me1 r w)) !! length (w_heap w)
    = Some (new_store me1)
  ∧ w_heap (created me2 r (created me1 r w)) !! S (length (w_heap w))
    = Some (new_store me2).
Proof.
  unfold created. cbn [w_heap]. split.
  - rewrite lookup_app_l by (rewrite length_app; simpl; lia).
    by rewrite lookup_app_r, Nat.sub_diag by lia.
  - rewrite lookup_app_r by (rewrite length_app; simpl; lia).
    rewrite length_app. cbn [length].
    by replace (S (length (w_heap w)) - (length (w_heap w) + 1)) with 0 by lia.
Qed.

Lemma same_getter_same_setter (me1 me2 : HasOne) :
  getterName me1 = getterName me2 → setterName me1 = setterName me2.
Proof.
  unfold getterName, setterName. intros H.
  cbv [String.append] in H. injection H as H.
  cbv [String.append]. by rewrite H.
Qed.

(** X9: two relations of one record whose store, getter and setter names
    are all different do not share anything: the store functions give the
    record two stores, each relation's accessors work on its own store,
    and setting through one relation leaves the other relation's store
    and getter result as they were. *)
Theorem two_relations_independent (me1 me2 : HasOne) (r : rid) (w : world)
    (v : setter_arg) (arg2 args : call_arg) :
  disjoint_names me1 me2 →
  o_props (get_owner w r) !! storeName me1 = None →
  o_props (get_owner w r) !! storeName me2 = None →
  let l1 := length (w_heap w) in
  let l2 := S (length (w_heap w)) in
  let w2 := snd (getStore me2 r (snd (getStore me1 r w))) in
  let w3 := snd (call_setter me1 r v arg2 w2) in
  let e := ExtStore.element_of
             (Ext_apply (storeConfig me1) (associatedModel me1)) v in
  fst (getStore me1 r w) = Ok (Some (PStore l1))
  ∧ fst (getStore me2 r (snd (getStore me1 r w))) = Ok (Some (PStore l2))
  ∧ bound_store me1 w2 r = Some l1
  ∧ bound_store me2 w2 r = Some l2
  ∧ fst (call_setter me1 r v arg2 w2) = Ok tt
  ∧ call_getter me1 r args w3 = (Ok (Some e), w3)
  ∧ elements w3 l2 = elements w2 l2
  ∧ call_getter me2 r args w3 = (Ok None, w3).
Proof.
  intros Hd Hu1 Hu2. cbv zeta. unfold disjoint_names in Hd.
  rewrite !NoDup_cons, !not_elem_of_cons in Hd.
  destruct Hd as ((Ha1 & Ha2 & Ha3 & Ha4 & Ha5 & _) &
                  (Hb2 & Hb3 & Hb4 & Hb5 & _) &
                  (Hc3 & Hc4 & Hc5 & _) &
                  (Hd4 & Hd5 & _) & (He5 & _) & _).
  assert (Hn1 : names_ok me1) by done.
  assert (Hn2 : names_ok me2) by done.
  rewrite (applyStore_unbound me1 r w Hn1 Hu1). cbn [fst snd].
  assert (Hu2' : o_props (get_owner (created me1 r w) r) !! storeName me2
                 = None).
  { rewrite created_owner_same. cbn [o_props]. by through_inserts. }
  rewrite (applyStore_unbound me2 r _ Hn2 Hu2'). cbn [fst snd].
  assert (Hlen : length (w_heap (created me1 r w)) = S (length (w_heap w))).
  { unfold created. cbn [w_heap]. rewrite length_app. simpl. lia. }
  pose proof (created_twice_props me1 me2 r w) as Hp.
  destruct (created_twice_heap me1 me2 r w) as [Hh1 Hh2].
  set (w2 := created me2 r (created me1 r w)) in *.
  assert (Hs1 : o_props (get_owner w2 r) !! storeName me1
                = Some (PStore (length (w_heap w))))
    by (rewrite Hp; by through_inserts).
  assert (Hs2 : o_props (get_owner w2 r) !! storeName me2
                = Some (PStore (S (length (w_heap w)))))
    by (rewrite Hp; by through_inserts).
  assert (Hg1 : o_props (get_owner w2 r) !! getterName me1
                = Some (PGetter (length (w_heap w))))
    by (rewrite Hp; by through_inserts).
  assert (Hg2 : o_props (get_owner w2 r) !! getterName me2
                = Some (PGetter (S (length (w_heap w)))))
    by (rewrite Hp; by through_inserts).
  assert (Hse1 : o_props (get_owner w2 r) !! setterName me1
                 = Some (PSetter (length (w_heap w))))
    by (rewrite Hp; by through_inserts).
  assert (Hc : call_setter me1 r v arg2 w2
               = setter (length (w_heap w)) v arg2 w2).
  { unfold call_setter, bind, get_prop. by rewrite Hse1. }
  rewrite Hlen, Hc, (setter_eq _ _ v arg2 w2 Hh1). cbn [fst snd].
  split; [done|]. split; [done|].
  split; [by apply bound_store_Some|]. split; [by apply bound_store_Some|].
  split; [done|].
  match goal with
  | |- call_getter _ _ _ ?w3 = _ ∧ _ =>
      rewrite (call_getter_installed me1 r args w3 _ Hg1);
      rewrite (call_getter_installed me2 r args w3 _ Hg2)
  end.
  unfold elements. cbn [w_heap].
  rewrite list_lookup_insert_eq by (by eapply lookup_lt_Some).
  rewrite list_lookup_insert_ne by lia. rewrite Hh2.
  by cbn [new_store st_data st_config head].
Qed.

Lemma two_relations_independent_witness :
  let w2 := snd (getStore person_vehicle 1
                   (snd (getStore person_address 1 john_world))) in
  let w3 := snd (call_setter person_address 1 (ArgKey (SNum 10)) CallNone w2) in
  disjoint_names person_address person_vehicle
  ∧ o_props (get_owner john_world 1) !! storeName person_address = None
  ∧ o_props (get_owner john_world 1) !! storeName person_vehicle = None
  ∧ bound_store person_address w2 1 = Some 0
  ∧ bound_store person_vehicle w2 1 = Some 1
  ∧ call_getter person_vehicle 1 CallNone w3 = (Ok None, w3).
Proof.
  cbv zeta.
  assert (Hd : disjoint_names person_address person_vehicle).
  { unfold disjoint_names. apply (bool_decide_unpack _). vm_compute. exact I. }
  assert (H1 : o_props (get_owner john_world 1) !! storeName person_address
               = None) by reflexivity.
  assert (H2 : o_props (get_owner john_world 1) !! storeName person_vehicle
               = None) by reflexivity.
  pose proof (two_relations_independent person_address person_vehicle 1
                john_world (ArgKey (SNum 10)) CallNone CallNone Hd H1 H2)
    as (_ & _ & Hb1 & Hb2 & _ & _ & _ & Hg).
  exact (conj Hd (conj H1 (conj H2 (conj Hb1 (conj Hb2 Hg))))).
Defined.

(** X10: the accessors are installed under "get"/"set" plus the
    capitalized name, on the record itself.  When two relations of one
    record have different store names but the same accessor names (their
    names are equal, or differ only in the case of the first letter), the
    relation whose store function runs second overwrites both accessors:
    each relation keeps its own store, but the first relation's getter and
    setter now work on the second relation's store, and the first
    relation's store stays empty. *)
Theorem same_accessor_names_clobber (me1 me2 : HasOne) (r : rid) (w : world)
    (v : setter_arg) (arg2 args : call_arg) :
  getterName me1 = getterName me2 →
  storeName me1 ≠ storeName me2 →
  names_ok me1 → names_ok me2 →
  o_props (get_owner w r) !! storeName me1 = None →
  o_props (get_owner w r) !! storeName me2 = None →
  let l1 := length (w_heap w) in
  let l2 := S (length (w_heap w)) in
  let w2 := snd (getStore me2 r (snd (getStore me1 r w))) in
  let w3 := snd (call_setter me1 r v arg2 w2) in
  let e := ExtStore.element_of
             (Ext_apply (storeConfig me2) (associatedModel me2)) v in
  bound_store me1 w2 r = Some l1
  ∧ bound_store me2 w2 r = Some l2
  ∧ o_props (get_owner w2 r) !! getterName me1 = Some (PGetter l2)
  ∧ o_props (get_owner w2 r) !! setterName me1 = Some (PSetter l2)
  ∧ call_getter me1 r args w3 = (Ok (Some e), w3)
  ∧ elements w3 l2 = [e]
  ∧ elements w3 l1 = [].
Proof.
  intros Hg Hne Hn1 Hn2 Hu1 Hu2. cbv zeta.
  pose proof (same_getter_same_setter me1 me2 Hg) as Hs.
  pose proof (getter_setter_names_differ me2) as Hgs.
  rewrite (applyStore_unbound me1 r w Hn1 Hu1). cbn [fst snd].
  destruct Hn1 as [A1 A2]. rewrite Hg in A1. rewrite Hs in A2.
  pose proof Hn2 as [B1 B2].
  assert (Hu2' : o_props (get_owner (created me1 r w) r) !! storeName me2
                 = None).
  { rewrite created_owner_same. cbn [o_props]. rewrite Hg, Hs.
    by through_inserts. }
  rewrite (applyStore_unbound me2 r _ Hn2 Hu2'). cbn [fst snd].
  pose proof (created_twice_props me1 me2 r w) as Hp.
  destruct (created_twice_heap me1 me2 r w) as [Hh1 Hh2].
  set (w2 := created me2 r (created me1 r w)) in *.
  rewrite Hg, Hs in Hp. rewrite Hg, Hs.
  assert (Hs1 : o_props (get_owner w2 r) !! storeName me1
                = Some (PStore (length (w_heap w))))
    by (rewrite Hp; by through_inserts).
  assert (Hs2 : o_props (get_owner w2 r) !! storeName me2
                = Some (PStore (S (length (w_heap w)))))
    by (rewrite Hp; by through_inserts).
  assert (Hg2 : o_props (get_owner w2 r) !! getterName me2
                = Some (PGetter (S (length (w_heap w)))))
    by (rewrite Hp; by through_inserts).
  assert (Hse2 : o_props (get_owner w2 r) !! setterName me2
                 = Some (PSetter (S (length (w_heap w)))))
    by (rewrite Hp; by through_inserts).
  assert (Hc : call_setter me1 r v arg2 w2
               = setter (S (length (w_heap w))) v arg2 w2).
  { unfold call_setter, bind, get_prop. by rewrite Hs, Hse2. }
  rewrite Hc, (setter_eq _ _ v arg2 w2 Hh2). cbn [fst snd].
  split; [by apply bound_store_Some|]. split; [by apply bound_store_Some|].
  split; [done|]. split; [done|].
  assert (Hg1 : o_props (get_owner w2 r) !! getterName me1
                = Some (PGetter (S (length (w_heap w)))))
    by (by rewrite Hg).
  match goal with
  | |- call_getter _ _ _ ?w3 = _ ∧ _ =>
      rewrite (call_getter_installed me1 r args w3 _ Hg1)
  end.
  unfold elements. cbn [w_heap].
  rewrite list_lookup_insert_eq by (by eapply lookup_lt_Some).
  rewrite list_lookup_insert_ne by lia. rewrite Hh1.
  by cbn [new_store st_data st_config head].
Qed.

Lemma same_accessor_names_clobber_witness :
  let w2 := snd (getStore person_billing 1
                   (snd (getStore person_address 1 john_world))) in
  let w3 := snd (call_setter person_address 1 (ArgKey (SNum 10)) CallNone w2) in
  getterName person_address = getterName person_billing
  ∧ storeName person_address ≠ storeName person_billing
  ∧ names_ok person_address ∧ names_ok person_billing
  ∧ o_props (get_owner john_world 1) !! storeName person_address = None
  ∧ o_props (get_owner john_world 1) !! storeName person_billing = None
  ∧ bound_store person_address w2 1 = Some 0
  ∧ elements w3 0 = [].
Proof.
  cbv zeta.
  assert (Hg : getterName person_address = getterName person_billing)
    by reflexivity.
  assert (Hne : storeName person_address ≠ storeName person_billing)
    by discriminate.
  assert (Hn2 : names_ok person_billing)
    by (split; intros H; vm_compute in H; discriminate H).
  assert (H1 : o_props (get_owner john_world 1) !! storeName person_address
               = None) by reflexivity.
  assert (H2 : o_props (get_owner john_world 1) !! storeName person_billing
               = None) by reflexivity.
  pose proof (same_accessor_names_clobber person_address person_billing 1
                john_world (ArgKey (SNum 10)) CallNone CallNone
                Hg Hne person_address_names_ok Hn2 H1 H2)
    as (Hb1 & _ & _ & _ & _ & _ & He).
  exact (conj Hg (conj Hne (conj person_address_names_ok (conj Hn2
           (conj H1 (conj H2 (conj Hb1 He))))))).
Defined.

(** X11: the setter writes one store only, the one its closure captured,
    and of that store only the elements: in every world, every other
    store is as before, the number of stores is the same, and every store
    keeps its config, its loads in flight and its loaded flag.  So the
    setter neither waits for nor cancels a load in flight. *)
Theorem setter_touches_one_store (me : HasOne) (r : rid) (v : setter_arg)
    (arg2 : call_arg) (w : world) :
  let w' := snd (call_setter me r v arg2 w) in
  length (w_heap w') = length (w_heap w)
  ∧ (∀ l s', w_heap w' !! l = Some s' →
       ∃ s, w_heap w !! l = Some s ∧ st_config s' = st_config s
            ∧ st_pending s' = st_pending s ∧ st_loaded s' = st_loaded s)
  ∧ (∀ l, o_props (get_owner w r) !! setterName me ≠ Some (PSetter l) →
          w_heap w' !! l = w_heap w !! l).
Proof.
  cbv zeta. split; [apply (call_setter_frame me r v arg2 w)|].
  split; [intros l s'; apply call_setter_heap|].
  intros l Hl. unfold call_setter, bind, get_prop.
  destruct (o_props (get_owner w r) !! setterName me) as [[l'|l'|l']|] eqn:E;
    cbn [throw snd]; try done.
  assert (l' ≠ l) by congruence.
  destruct (w_heap w !! l') as [s|] eqn:Es.
  - rewrite (setter_eq _ _ _ _ _ Es). cbn [snd w_heap].
    by rewrite list_lookup_insert_ne.
  - by rewrite (setter_dangling _ _ _ _ Es).
Qed.
